(** * Evaluation metrics of segmentation/eval_utils.py

    A shallow embedding of the Keras-backend tensor code of
    [segmentation/eval_utils.py] and the properties of its metrics.

    Tensors are row-major buffers with a shape, as in the backend.  Float
    values are modelled by exact rationals extended with the two infinities
    and NaN: rounding and signed zeros are not modelled, division by zero and
    the mean of an empty tensor produce the non-finite values they produce
    in the backend.  Since float32 rounds, and absorbs epsilon next to a
    count of cells, bounds on the values of the metrics are stated as
    closed intervals and as comparisons that rounding to nearest keeps; no
    statement relies on a ratio staying strictly below 1.  Shape errors
    raised by the backend are the [InvalidArgument] outcome of [result]. *)

From Stdlib Require Import String Ascii DecimalString.
From Stdlib Require Import List Arith ZArith QArith Qabs Lia Lqa Bool.
Import ListNotations.

Local Open Scope nat_scope.

(** ** Float values *)

(** A float: a finite value, an infinity or NaN. *)
Inductive fl : Type :=
| Fin (q : Q)
| PInf
| NInf
| NaN.

Definition Qltb (x y : Q) : bool := negb (Qle_bool y x).

Definition Qzerob (x : Q) : bool := Qeq_bool x 0.

(** Negation, sum, difference, product and quotient of floats, with the
    IEEE results on infinities and NaN. *)
Definition fopp (a : fl) : fl :=
  match a with
  | Fin x => Fin (- x)
  | PInf => NInf
  | NInf => PInf
  | NaN => NaN
  end.

Definition fadd (a b : fl) : fl :=
  match a, b with
  | NaN, _ | _, NaN => NaN
  | Fin x, Fin y => Fin (x + y)
  | PInf, NInf | NInf, PInf => NaN
  | PInf, _ | _, PInf => PInf
  | NInf, _ | _, NInf => NInf
  end.

Definition fsub (a b : fl) : fl := fadd a (fopp b).

(** [scale_inf pos x]: an infinity of sign [pos] multiplied by the finite
    value [x]. *)
Definition scale_inf (pos : bool) (x : Q) : fl :=
  if Qzerob x then NaN
  else if Bool.eqb pos (Qltb 0 x) then PInf else NInf.

Definition fmul (a b : fl) : fl :=
  match a, b with
  | NaN, _ | _, NaN => NaN
  | Fin x, Fin y => Fin (x * y)
  | PInf, Fin x | Fin x, PInf => scale_inf true x
  | NInf, Fin x | Fin x, NInf => scale_inf false x
  | PInf, PInf | NInf, NInf => PInf
  | PInf, NInf | NInf, PInf => NInf
  end.

Definition fdiv (a b : fl) : fl :=
  match a, b with
  | NaN, _ | _, NaN => NaN
  | Fin x, Fin y =>
      if Qzerob y then
        if Qzerob x then NaN else if Qltb 0 x then PInf else NInf
      else Fin (x / y)
  | Fin _, _ => Fin 0
  | PInf, Fin y => if Qltb y 0 then NInf else PInf
  | NInf, Fin y => if Qltb y 0 then PInf else NInf
  | _, _ => NaN
  end.

(** [a > c] for a float [a] and a Python number [c]. *)
Definition fgreater (a : fl) (c : Q) : bool :=
  match a with
  | Fin x => Qltb c x
  | PInf => true
  | NInf | NaN => false
  end.

(** The float of a boolean: 1.0 or 0.0. *)
Definition b2f (b : bool) : fl := if b then Fin 1 else Fin 0.

Definition fsum (l : list fl) : fl := fold_right fadd (Fin 0) l.

(** ** Outcomes *)

(** The outcome of a call: a value, or the error the backend raises on
    incompatible shapes. *)
Inductive result (A : Type) : Type :=
| Ok (a : A)
| InvalidArgument.

Arguments Ok {A} a.
Arguments InvalidArgument {A}.

Definition bind {A B} (r : result A) (k : A -> result B) : result B :=
  match r with
  | Ok a => k a
  | InvalidArgument => InvalidArgument
  end.

Notation "x <- r ;; k" := (bind r (fun x => k))
  (at level 61, r at next level, right associativity).

(** ** Tensors *)

(** A tensor: its shape and its elements in row-major order. *)
Record tensor (A : Type) : Type := mkTensor {
  shape : list nat;
  data : list A
}.

Arguments mkTensor {A} shape data.
Arguments shape {A} t.
Arguments data {A} t.

(** The number of elements of a tensor of shape [s]. *)
Definition numel (s : list nat) : nat := fold_right Nat.mul 1 s.

(** The buffer of a tensor holds as many elements as its shape says. *)
Definition wf {A} (t : tensor A) : Prop := length (data t) = numel (shape t).

(** [chunk k n l]: the first [k] consecutive blocks of [n] elements of [l]. *)
Fixpoint chunk {A} (k n : nat) (l : list A) : list (list A) :=
  match k with
  | 0 => []
  | S k' => firstn n l :: chunk k' n (skipn n l)
  end.

Fixpoint zipWith {A B C} (f : A -> B -> C) (l : list A) (m : list B) : list C :=
  match l, m with
  | x :: l', y :: m' => f x y :: zipWith f l' m'
  | _, _ => []
  end.

(** The rows (instances) of a tensor of shape (batch, N). *)
Definition rows {A} (t : tensor A) : list (list A) :=
  chunk (nth 0 (shape t) 0) (nth 1 (shape t) 0) (data t).

(** *** Elementwise operators, with broadcasting

    The operators [+], [-], [*] and [/] on tensors align the two shapes
    on the right, stretch the dimensions of size 1 and fail on any other
    mismatch. *)

(** Two dimensions broadcast when they are equal or one of them is 1. *)
Definition bdim (na nb : nat) : option nat :=
  if na =? nb then Some na
  else if na =? 1 then Some nb
  else if nb =? 1 then Some na
  else None.

(** The shape of the result for two shapes of the same rank. *)
Fixpoint bshape (sa sb : list nat) : option (list nat) :=
  match sa, sb with
  | [], [] => Some []
  | na :: sa', nb :: sb' =>
      match bdim na nb, bshape sa' sb' with
      | Some n, Some s => Some (n :: s)
      | _, _ => None
      end
  | _, _ => None
  end.

(** The elements of the result: along the first dimension the blocks of
    the two operands are paired, the only block of an operand of size 1
    being reused, and the pairs are combined recursively. *)
Fixpoint bdata {A B C} (f : A -> B -> C) (sa sb : list nat)
    (da : list A) (db : list B) : list C :=
  match sa, sb with
  | na :: sa', nb :: sb' =>
      let ca := chunk na (numel sa') da in
      let cb := chunk nb (numel sb') db in
      concat (map (fun i =>
                     bdata f sa' sb'
                       (nth (if na =? 1 then 0 else i) ca [])
                       (nth (if nb =? 1 then 0 else i) cb []))
                (seq 0 (if na =? 1 then nb else na)))
  | _, _ =>
      match da, db with
      | x :: _, y :: _ => [f x y]
      | _, _ => []
      end
  end.

(** A shape extended to rank [r] with leading dimensions 1. *)
Definition pad_rank (r : nat) (s : list nat) : list nat :=
  repeat 1 (r - length s) ++ s.

Definition K_binop (f : fl -> fl -> fl) (a b : tensor fl) : result (tensor fl) :=
  let r := Nat.max (length (shape a)) (length (shape b)) in
  let sa := pad_rank r (shape a) in
  let sb := pad_rank r (shape b) in
  match bshape sa sb with
  | Some s => Ok (mkTensor s (bdata f sa sb (data a) (data b)))
  | None => InvalidArgument
  end.

Definition K_add := K_binop fadd.
Definition K_sub := K_binop fsub.
Definition K_mul := K_binop fmul.
Definition K_div := K_binop fdiv.

(** A Python number used as an operand is a tensor of rank 0. *)
Definition scalar (c : Q) : tensor fl := mkTensor [] [Fin c].

(** *** Functions of the Keras backend *)

(** [K.greater(x, c)] for a Python number [c]. *)
Definition K_greater (x : tensor fl) (c : Q) : tensor bool :=
  mkTensor (shape x) (map (fun v => fgreater v c) (data x)).

(** [K.cast(x, "float32")] of a boolean tensor. *)
Definition K_cast (x : tensor bool) : tensor fl :=
  mkTensor (shape x) (map b2f (data x)).

(** Pointwise sum of slices of length [inner]. *)
Definition vsum (inner : nat) (slices : list (list fl)) : list fl :=
  fold_right (zipWith fadd) (repeat (Fin 0) inner) slices.

(** [K.sum(x, axis, keepdims)]: with [outer] the product of the dimensions
    before [axis], [n] the dimension at [axis] and [inner] the product of
    those after it, each of the [outer] blocks is cut in [n] slices of
    [inner] elements, which are summed pointwise. *)
Definition K_sum (x : tensor fl) (axis : nat) (keepdims : bool)
  : result (tensor fl) :=
  if axis <? length (shape x) then
    let outer := numel (firstn axis (shape x)) in
    let n := nth axis (shape x) 0 in
    let inner := numel (skipn (S axis) (shape x)) in
    Ok (mkTensor
          (firstn axis (shape x) ++ (if keepdims then [1] else [])
             ++ skipn (S axis) (shape x))
          (concat (map (fun blk => vsum inner (chunk n inner blk))
                     (chunk outer (n * inner) (data x)))))
  else InvalidArgument.

(** [K.mean(x)] over all the elements: NaN for a tensor with no element. *)
Definition K_mean (x : tensor fl) : fl :=
  fdiv (fsum (data x)) (Fin (inject_Z (Z.of_nat (length (data x))))).

(** [K.reshape(x, target)]; a dimension -1 is inferred, which requires the
    other dimensions to be non-zero and their product to divide the number
    of elements. *)
Definition K_reshape {A} (x : tensor A) (target : list Z) : result (tensor A) :=
  if existsb (fun z => (z <? -1)%Z) target then InvalidArgument
  else
    match count_occ Z.eq_dec target (-1)%Z with
    | 0 =>
        let s := map Z.to_nat target in
        if numel s =? numel (shape x) then Ok (mkTensor s (data x))
        else InvalidArgument
    | 1 =>
        let product :=
          numel (map Z.to_nat (filter (fun z => negb (z =? -1)%Z) target)) in
        if product =? 0 then InvalidArgument
        else if numel (shape x) mod product =? 0 then
          Ok (mkTensor
                (map (fun z => if (z =? -1)%Z then numel (shape x) / product
                               else Z.to_nat z) target)
                (data x))
        else InvalidArgument
    | _ => InvalidArgument
    end.

(** [K.repeat_elements(x, rep, axis)]: the tensor is split into its slices
    along [axis], each slice is taken [rep] times and the slices are
    concatenated along [axis]; splitting in no slice and concatenating no
    slice are errors. *)
Definition K_repeat_elements {A} (x : tensor A) (rep : nat) (axis : nat)
  : result (tensor A) :=
  if (axis <? length (shape x)) && (0 <? nth axis (shape x) 0) && (0 <? rep)
  then
    let outer := numel (firstn axis (shape x)) in
    let n := nth axis (shape x) 0 in
    let inner := numel (skipn (S axis) (shape x)) in
    Ok (mkTensor
          (firstn axis (shape x) ++ [n * rep] ++ skipn (S axis) (shape x))
          (concat (map (fun blk =>
                          concat (flat_map (fun s => repeat s rep)
                                    (chunk n inner blk)))
                     (chunk outer (n * inner) (data x)))))
  else InvalidArgument.

(** ** The metrics *)

Section Metrics.

(** [K.epsilon()], the fuzz factor of the backend (1e-7 unless reconfigured). *)
Variable epsilon : Q.

(** [iou], lines 60-64. *)
Definition iou (y_true y_pred : tensor fl) (heatmap_threshold : Q)
  : result fl :=
  let pred := K_cast (K_greater y_pred heatmap_threshold) in
  intersection <- K_mul y_true pred ;;
  s <- K_add y_true pred ;;
  let union := K_cast (K_greater s 0) in
  num <- K_sum intersection 1 false ;;
  usum <- K_sum union 1 false ;;
  den <- K_add (scalar epsilon) usum ;;
  iou_values <- K_div num den ;;
  Ok (K_mean iou_values).

(** [precision], lines 79-83. *)
Definition precision (y_true y_pred : tensor fl) (heatmap_threshold : Q)
  : result fl :=
  let pred := K_cast (K_greater y_pred heatmap_threshold) in
  prod <- K_mul y_true pred ;;
  tp <- K_sum prod 1 false ;;
  diff <- K_sub pred y_true ;;
  fp <- K_sum (K_cast (K_greater diff 0)) 1 false ;;
  tpfp <- K_add tp fp ;;
  den <- K_add tpfp (scalar epsilon) ;;
  precision_values <- K_div tp den ;;
  Ok (K_mean precision_values).

(** [recall], lines 98-102. *)
Definition recall (y_true y_pred : tensor fl) (heatmap_threshold : Q)
  : result fl :=
  let pred := K_cast (K_greater y_pred heatmap_threshold) in
  prod <- K_mul y_true pred ;;
  tp <- K_sum prod 1 false ;;
  diff <- K_sub y_true pred ;;
  fn <- K_sum (K_cast (K_greater diff 0)) 1 false ;;
  tpfn <- K_add tp fn ;;
  den <- K_add tpfn (scalar epsilon) ;;
  recall_values <- K_div tp den ;;
  Ok (K_mean recall_values).

(** [iou_acc], lines 120-125. *)
Definition iou_acc (y_true y_pred : tensor fl) (heatmap_threshold : Q)
  : result fl :=
  let pred := K_cast (K_greater y_pred heatmap_threshold) in
  intersection <- K_mul y_true pred ;;
  s <- K_add y_true pred ;;
  let union := K_cast (K_greater s 0) in
  num <- K_sum intersection 1 false ;;
  usum <- K_sum union 1 false ;;
  den <- K_add (scalar epsilon) usum ;;
  iou_values <- K_div num den ;;
  let acc := K_cast (K_greater iou_values (1 # 2)) in
  Ok (K_mean acc).

(** Lines 140-149 of [iou_bbox]: the mask rebuilt from the projections of
    the binarized prediction. *)
Definition iou_bbox_mask (y_pred : tensor fl) (heatmap_threshold : Q)
    (input_dim : nat) : result (tensor fl) :=
  let pred := K_cast (K_greater y_pred heatmap_threshold) in
  pred <- K_reshape pred [(-1)%Z; Z.of_nat input_dim; Z.of_nat input_dim] ;;
  horiz <- K_sum pred 1 true ;;
  let horiz := K_cast (K_greater horiz 0) in
  mask_horiz <- K_repeat_elements horiz input_dim 1 ;;
  vert <- K_sum pred 2 true ;;
  let vert := K_cast (K_greater vert 0) in
  mask_vert <- K_repeat_elements vert input_dim 2 ;;
  mask <- K_mul mask_vert mask_horiz ;;
  K_reshape mask [(-1)%Z; Z.of_nat (input_dim * input_dim)].

(** Lines 150-153 of [iou_bbox]: the IoU of the mask with the ground truth. *)
Definition iou_of_mask (y_true mask : tensor fl) : result fl :=
  intersection <- K_mul y_true mask ;;
  s <- K_add y_true mask ;;
  let union := K_cast (K_greater s 0) in
  num <- K_sum intersection 1 false ;;
  usum <- K_sum union 1 false ;;
  den <- K_add (scalar epsilon) usum ;;
  iou_values <- K_div num den ;;
  Ok (K_mean iou_values).

(** [iou_bbox], lines 140-153. *)
Definition iou_bbox (y_true y_pred : tensor fl) (heatmap_threshold : Q)
    (input_dim : nat) : result fl :=
  mask <- iou_bbox_mask y_pred heatmap_threshold input_dim ;;
  iou_of_mask y_true mask.

End Metrics.

(** ** The metric factory and the report *)

Section Factory.

(** [K.epsilon()] and Python's [str] on a threshold. *)
Variable epsilon : Q.
Variable str : Q -> string.

(** A metric function of the module: its [__name__] and its behaviour on
    (gt, pred, threshold). *)
Record metric_func := mkFunc {
  func_name : string;
  func_call : tensor fl -> tensor fl -> Q -> result fl
}.

(** A metric returned by the factory: its [__name__] and its behaviour on
    (gt, pred). *)
Record metric := mkMetric {
  name : string;
  call : tensor fl -> tensor fl -> result fl
}.

(** The four metric functions defined with [def], under their names. *)
Definition iou_func := mkFunc "iou" (iou epsilon).
Definition precision_func := mkFunc "precision" (precision epsilon).
Definition recall_func := mkFunc "recall" (recall epsilon).
Definition iou_acc_func := mkFunc "iou_acc" (iou_acc epsilon).

(** [get_metrics], lines 20-29: two nested loops appending to [metrics]. *)
Definition get_metrics (input_dim : nat) (heatmap_threshold : list Q)
  : list metric :=
  let metrics := [] in
  let iou_bbox_metric :=
    mkFunc "iou_bbox"
      (fun gt pred t => iou_bbox epsilon gt pred t input_dim) in
  fold_left
    (fun metrics metric_func =>
       fold_left
         (fun metrics thresh =>
            let metric :=
              mkMetric
                (func_name metric_func ++ "_" ++ str thresh)%string
                ((fun f t => fun gt pred => func_call f gt pred t)
                   metric_func thresh) in
            metrics ++ [metric])
         heatmap_threshold metrics)
    [iou_func; precision_func; recall_func; iou_acc_func; iou_bbox_metric]
    metrics.

(** The metric kinds in the order of the factory. *)
Definition metric_kinds (input_dim : nat) : list metric_func :=
  [ mkFunc "iou" (iou epsilon);
    mkFunc "precision" (precision epsilon);
    mkFunc "recall" (recall epsilon);
    mkFunc "iou_acc" (iou_acc epsilon);
    mkFunc "iou_bbox" (fun gt pred t => iou_bbox epsilon gt pred t input_dim) ].

(** The metric of kind [f] closed over the threshold [t]. *)
Definition closed_metric (f : metric_func) (t : Q) : metric :=
  mkMetric (func_name f ++ "_" ++ str t)%string
    (fun gt pred => func_call f gt pred t).

End Factory.

(** *** [format_results] *)

(** The character of a decimal digit and the decimal notation of a
    non-negative integer. *)
Definition digit (n : Z) : string :=
  String (ascii_of_nat (48 + Z.to_nat n)) EmptyString.

Definition decimal (n : Z) : string :=
  NilZero.string_of_uint (N.to_uint (Z.to_N n)).

(** The integer nearest to [q], ties to even. *)
Definition round_half_even (q : Q) : Z :=
  let n := Qnum q in
  let d := Zpos (Qden q) in
  let lo := (n / d)%Z in
  let twice := (2 * (n mod d))%Z in
  if (twice <? d)%Z then lo
  else if (d <? twice)%Z then (lo + 1)%Z
  else if Z.even lo then lo else (lo + 1)%Z.

(** ['%2.3f' % v]: three decimals; the minimal width 2 never pads.  A
    negative value that rounds to zero keeps its sign, as in Python; the
    negative zero of the floats, printed "-0.000", has no counterpart in
    [fl], whose [Fin 0] prints as the positive zero. *)
Definition format_scalar (v : fl) : string :=
  match v with
  | Fin q =>
      let m := round_half_even (Qabs q * 1000) in
      let frac := (m mod 1000)%Z in
      ((if Qltb q 0 then "-" else "")
       ++ decimal (m / 1000) ++ "."
       ++ digit (frac / 100) ++ digit (frac / 10 mod 10) ++ digit (frac mod 10)
      )%string
  | PInf => "inf"%string
  | NInf => "-inf"%string
  | NaN => "nan"%string
  end.

(** [format_results], lines 42-45: the loop over [zip(names, scalars)]
    appends to [res]; no statement of the function raises. *)
Definition format_results (names : list string) (scalars : list fl)
  : result string :=
  let res := [] in
  let res :=
    fold_left
      (fun res '(name, scalar) =>
         res ++ [(name ++ ": " ++ format_scalar scalar)%string])
      (combine names scalars) res in
  Ok (String.concat ", " res).

(** ** Per-instance form of the metrics and the formulas of the specification *)

(** The indicator [v > 0] as a float. *)
Definition positive (v : fl) : fl := b2f (fgreater v 0).

(** The binarized prediction: 1 where [pred > t], else 0. *)
Definition binarize (t : Q) (p : list fl) : list fl :=
  map (fun v => b2f (fgreater v t)) p.

(** The mean of the per-instance values of a batch. *)
Definition batch_mean (l : list fl) : fl :=
  fdiv (fsum l) (Fin (inject_Z (Z.of_nat (length l)))).

(** The IoU of one instance: ground truth row [g], mask row [m]. *)
Definition iou_instance (eps : Q) (g m : list fl) : fl :=
  fdiv (fsum (zipWith fmul g m))
       (fadd (Fin eps) (fsum (map positive (zipWith fadd g m)))).

(** The precision and the recall of one instance: ground truth row [g],
    binarized prediction row [p]. *)
Definition precision_instance (eps : Q) (g p : list fl) : fl :=
  let tp := fsum (zipWith fmul g p) in
  let fp := fsum (map positive (zipWith fsub p g)) in
  fdiv tp (fadd (fadd tp fp) (Fin eps)).

Definition recall_instance (eps : Q) (g p : list fl) : fl :=
  let tp := fsum (zipWith fmul g p) in
  let fn := fsum (map positive (zipWith fsub g p)) in
  fdiv tp (fadd (fadd tp fn) (Fin eps)).

(** [max(v, 0)] *)
Definition fmax0 (v : fl) : fl := if fgreater v 0 then v else Fin 0.

(** The specification's per-instance IoU:
    sum(gt * binarized) / (sum((gt + binarized) > 0) + eps). *)
Definition spec_iou_instance (eps t : Q) (g p : list fl) : fl :=
  let binarized := binarize t p in
  fdiv (fsum (zipWith fmul g binarized))
       (fadd (fsum (map positive (zipWith fadd g binarized))) (Fin eps)).

(** The specification's per-instance precision: tp / (tp + fp + eps) with
    tp = sum(gt * binarized) and fp = sum(max(binarized - gt, 0)). *)
Definition spec_precision_instance (eps t : Q) (g p : list fl) : fl :=
  let binarized := binarize t p in
  let tp := fsum (zipWith fmul g binarized) in
  let fp := fsum (map fmax0 (zipWith fsub binarized g)) in
  fdiv tp (fadd (fadd tp fp) (Fin eps)).

(** The fraction of the values of [l] that are strictly greater than 1/2. *)
Definition fraction_above_half (l : list fl) : fl :=
  fdiv (Fin (inject_Z (Z.of_nat
               (length (filter (fun v => fgreater v (1 # 2)) l)))))
       (Fin (inject_Z (Z.of_nat (length l)))).

(** A value of a ground truth tensor: 0 or 1. *)
Definition bit (v : fl) : Prop := v = Fin 0 \/ v = Fin 1.

(** Every value of the tensor satisfies [P]. *)
Definition binary {A} (P : A -> Prop) (t : tensor A) : Prop :=
  Forall P (data t).

(** ** Images, projections and the bounding box *)

(** A [d] x [d] image: [d] rows of [d] cells. *)
Definition grid {A} (d : nat) (img : list (list A)) : Prop :=
  length img = d /\ Forall (fun row => length row = d) img.

(** The images of a buffer of [b] flattened [d] x [d] images. *)
Definition images {A} (b d : nat) (l : list A) : list (list (list A)) :=
  map (chunk d d) (chunk b (d * d) l).

(** The mask of one image: the outer product of the activity of its rows
    and of its columns. *)
Definition mask_img (d : nat) (img : list (list fl)) : list fl :=
  concat (map (fun row =>
                 map (fmul (positive (fsum row))) (map positive (vsum d img)))
            img).

(** Cell (i, j) of instance [r] in a buffer of flattened [d] x [d] images. *)
Definition cell {A} (d : nat) (l : list A) (r i j : nat) (dflt : A) : A :=
  nth ((r * d + i) * d + j) l dflt.

(** Cell (i, j) of instance [r] is predicted positive. *)
Definition predicted (t : Q) (d : nat) (y_pred : tensor fl) (r i j : nat)
  : bool :=
  fgreater (cell d (data y_pred) r i j NaN) t.

Definition row_active (t : Q) (d : nat) (y_pred : tensor fl) (r i : nat)
  : bool :=
  existsb (fun j => predicted t d y_pred r i j) (seq 0 d).

Definition col_active (t : Q) (d : nat) (y_pred : tensor fl) (r j : nat)
  : bool :=
  existsb (fun i => predicted t d y_pred r i j) (seq 0 d).

Definition list_min (l : list nat) : nat := fold_right Nat.min (hd 0 l) l.

(** The indicator of the smallest axis-aligned rectangle that covers the
    predicted-positive cells of instance [r]: the rows from the first to
    the last row with such a cell, the columns likewise; no cell when
    nothing is predicted. *)
Definition bounding_box (t : Q) (d : nat) (y_pred : tensor fl) (r i j : nat)
  : bool :=
  let rs := filter (row_active t d y_pred r) (seq 0 d) in
  let cs := filter (col_active t d y_pred r) (seq 0 d) in
  match rs, cs with
  | _ :: _, _ :: _ =>
      (list_min rs <=? i) && (i <=? list_max rs)
      && (list_min cs <=? j) && (j <=? list_max cs)
  | _, _ => false
  end.



(** The binarized prediction of instance [r] is a solid axis-aligned
    rectangle, possibly empty: rows [r0, r1) and columns [c0, c1). *)
Definition rectangular (t : Q) (d : nat) (y_pred : tensor fl) (r : nat) : Prop :=
  exists r0 r1 c0 c1 : nat,
    forall i j, i < d -> j < d ->
      (predicted t d y_pred r i j = true <-> r0 <= i < r1 /\ c0 <= j < c1).

(** ** Outcomes of interest *)

(** A metric outcome that is a scalar of the closed interval [0,1]. *)
Definition in_unit (r : result fl) : Prop :=
  exists q : Q, r = Ok (Fin q) /\ (0 <= q <= 1)%Q.

(** A per-instance value of the closed interval [0,1]. *)
Definition unit_value (v : fl) : Prop :=
  exists q : Q, v = Fin q /\ (0 <= q <= 1)%Q.

(** A per-instance ratio num / den whose numerator is at most its strictly
    positive denominator: a value of the closed interval [0,1]. *)
Definition unit_ratio (v : fl) : Prop :=
  exists num den : Q,
    v = Fin (num / den)
    /\ (0 <= num <= den)%Q /\ (0 < den)%Q /\ (0 <= num / den <= 1)%Q.

(** A metric outcome that is the scalar zero. *)
Definition is_zero (r : result fl) : Prop :=
  exists q : Q, r = Ok (Fin q) /\ (q == 0)%Q.

Definition zero_value (v : fl) : Prop := exists q : Q, v = Fin q /\ (q == 0)%Q.

(** A quotient of zero by epsilon. *)
Definition zero_over (eps : Q) (v : fl) : Prop :=
  exists num den : Q,
    v = Fin (num / den) /\ (num == 0)%Q /\ (den == eps)%Q.

Definition succeeds {A} (r : result A) : Prop := exists a : A, r = Ok a.

(** An outcome that is a tensor of shape [s]. *)
Definition ok_shape {A} (r : result (tensor A)) (s : list nat) : Prop :=
  exists c : tensor A, r = Ok c /\ shape c = s.

(** ** Example inputs *)

Definition eps7 : Q := 1 # 10000000.

Definition floats (l : list Q) : list fl := map Fin l.

Definition y_example : tensor fl :=
  mkTensor [3; 3] (floats [0; 1; 1;  1; 1; 1;  1; 0; 1]%Q).

Definition x_example : tensor fl :=
  mkTensor [3; 3]
    (floats [0.7; 0.1; 0.2;  0.9; 0.1; 0.65;  0.1; 0.2; 0.3]%Q).

(** A heatmap whose two predicted cells are opposite corners of a 3 x 3
    image. *)
Definition corners_pred : tensor fl :=
  mkTensor [1; 9] (floats [1; 0; 0;  0; 0; 0;  0; 0; 1]%Q).

(** A heatmap whose predicted cells are the 2 x 2 block at the top left of
    a 3 x 3 image, and a ground truth for it. *)
Definition block_pred : tensor fl :=
  mkTensor [1; 9] (floats [0.9; 0.8; 0;  0.7; 0.6; 0;  0.1; 0.2; 0.3]%Q).

Definition block_gt : tensor fl :=
  mkTensor [1; 9] (floats [0; 1; 1;  1; 1; 1;  1; 0; 1]%Q).

(** A batch without instance. *)
Definition empty_batch : tensor fl := mkTensor [0; 4] [].

(** An all-zero ground truth and a heatmap below the threshold 1/2. *)
Definition zeros_gt : tensor fl :=
  mkTensor [2; 2] (floats [0; 0;  0; 0]%Q).

Definition low_pred : tensor fl :=
  mkTensor [2; 2] (floats [0.1; 0.5;  0.25; 0]%Q).

(** A batch of one instance of two cells, with its ground truth. *)
Definition pair_gt : tensor fl := mkTensor [1; 2] (floats [1; 0]%Q).
Definition pair_pred : tensor fl := mkTensor [1; 2] (floats [0.9; 0.1]%Q).

(** A [str] for the examples: the positional decimal notation of a
    rational whose decimal expansion is finite, with at least one digit
    after the point, as Python prints such a float. *)
Fixpoint frac_digits (fuel : nat) (n d : Z) : string :=
  match fuel with
  | 0 => EmptyString
  | S fuel' =>
      if (n =? 0)%Z then EmptyString
      else (digit (10 * n / d) ++ frac_digits fuel' (10 * n mod d) d)%string
  end.

Definition decimal_str (q : Q) : string :=
  let n := Qnum (Qabs q) in
  let d := Zpos (Qden q) in
  let frac := frac_digits 17 (n mod d) d in
  ((if Qltb q 0 then "-" else "")
   ++ decimal (n / d) ++ "."
   ++ (if String.eqb frac "" then "0" else frac))%string.

(** ** Further formulas and relations between outcomes *)

(** The per-instance recall as a formula: tp / (tp + fn + eps) with
    tp = sum(gt * binarized) and fn = sum(max(gt - binarized, 0)). *)
Definition spec_recall_instance (eps t : Q) (g p : list fl) : fl :=
  let binarized := binarize t p in
  let tp := fsum (zipWith fmul g binarized) in
  let fn := fsum (map fmax0 (zipWith fsub g binarized)) in
  fdiv tp (fadd (fadd tp fn) (Fin eps)).

(** Two outcomes are finite scalars, the first at most the second. *)
Definition value_le (r1 r2 : result fl) : Prop :=
  exists a b : Q, r1 = Ok (Fin a) /\ r2 = Ok (Fin b) /\ (a <= b)%Q.

(** Two outcomes are the same finite scalar. *)
Definition same_value (r1 r2 : result fl) : Prop :=
  exists a b : Q, r1 = Ok (Fin a) /\ r2 = Ok (Fin b) /\ (a == b)%Q.

(** Two floats are finite, the first at most the second. *)
Definition fl_le (x y : fl) : Prop :=
  exists a b : Q, x = Fin a /\ y = Fin b /\ (a <= b)%Q.

(** Two floats are the same finite value. *)
Definition fl_same (x y : fl) : Prop :=
  exists a b : Q, x = Fin a /\ y = Fin b /\ (a == b)%Q.

(** Two dimensions that broadcast: equal, or one of them is 1. *)
Definition compatible (x y : nat) : Prop := x = y \/ x = 1 \/ y = 1.

(** Inputs whose shapes broadcast in the first dimension only, and inputs
    whose shapes do not broadcast. *)
Definition column_gt : tensor fl := mkTensor [2; 1] (floats [1; 0]%Q).
Definition wide_pred : tensor fl :=
  mkTensor [2; 3] (floats [0.9; 0.2; 0.7;  0.1; 0.8; 0.3]%Q).
Definition tall_pred : tensor fl :=
  mkTensor [3; 2] (floats [0.9; 0.2;  0.7; 0.1;  0.8; 0.3]%Q).

(** Two vectors. *)
Definition vector_gt : tensor fl := mkTensor [3] (floats [1; 0; 1]%Q).
Definition vector_pred : tensor fl := mkTensor [3] (floats [0.9; 0.2; 0.7]%Q).

(** A metric outcome that is the scalar one. *)
Definition is_one (r : result fl) : Prop :=
  exists q : Q, r = Ok (Fin q) /\ (q == 1)%Q.

(** A metric outcome that is a scalar above 1/2 and at most 1. *)
Definition above_half (r : result fl) : Prop :=
  exists q : Q, r = Ok (Fin q) /\ (1 # 2 < q <= 1)%Q.

(** A metric outcome that is a scalar between [lo] and [hi]. *)
Definition value_between (lo hi : Q) (r : result fl) : Prop :=
  exists q : Q, r = Ok (Fin q) /\ (lo <= q <= hi)%Q.

(** Every instance of the batch has a cell predicted above [t]. *)
Definition all_detected (t : Q) (y_pred : tensor fl) : Prop :=
  Forall (fun row => existsb (fun v => fgreater v t) row = true) (rows y_pred).

(** A heatmap and the ground truth it binarizes to at threshold 1/2. *)
Definition match_pred : tensor fl :=
  mkTensor [2; 3] (floats [0.9; 0.2; 0.7;  0.1; 0.8; 0.3]%Q).
Definition match_gt : tensor fl := K_cast (K_greater match_pred (1 # 2)).

(** The printed threshold [s] cannot be taken for the end of a metric
    name: it does not begin with "acc_" nor with "bbox_". *)
Definition plain_threshold (s : string) : Prop :=
  String.prefix "acc_" s = false /\ String.prefix "bbox_" s = false.

(** A ground truth with both classes and a heatmap that stays at or below
    the threshold 1/2. *)
Definition mixed_gt : tensor fl :=
  mkTensor [2; 4] (floats [1; 0; 1; 1;  0; 0; 1; 0]%Q).
Definition quiet_pred : tensor fl :=
  mkTensor [2; 4] (floats [0.1; 0.5; 0.25; 0;  0.4; 0.3; 0.2; 0.5]%Q).

(** * Properties *)

(** ** Blocks of a buffer *)

Section ListFacts.

Context {A B C : Type}.

Lemma length_chunk (k n : nat) (l : list A) : length (chunk k n l) = k.
Proof.
  revert l; induction k as [|k IH]; intros l; simpl; [reflexivity|].
  now rewrite IH.
Qed.

Lemma chunk_app (k n : nat) (c l : list A) :
  length c = n -> chunk (S k) n (c ++ l) = c :: chunk k n l.
Proof.
  intros H; subst n; simpl.
  rewrite firstn_app, skipn_app, Nat.sub_diag, firstn_all, skipn_all.
  simpl; rewrite app_nil_r; reflexivity.
Qed.

Lemma chunk_concat (k n : nat) (ls : list (list A)) :
  length ls = k -> Forall (fun c => length c = n) ls ->
  chunk k n (concat ls) = ls.
Proof.
  revert k; induction ls as [|c ls IH]; intros k Hk Hall.
  - simpl in Hk; subst k; reflexivity.
  - destruct k as [|k]; [discriminate|].
    inversion Hall; subst.
    change (concat (c :: ls)) with (c ++ concat ls).
    rewrite chunk_app by reflexivity.
    f_equal; apply IH; [simpl in Hk; lia | assumption].
Qed.

Lemma chunk_all (k n : nat) (l : list A) :
  length l = k * n -> Forall (fun c => length c = n) (chunk k n l).
Proof.
  revert l; induction k as [|k IH]; intros l H; simpl; constructor.
  - rewrite length_firstn; simpl in H; lia.
  - apply IH; rewrite length_skipn; simpl in H; lia.
Qed.

Lemma concat_chunk (k n : nat) (l : list A) :
  length l = k * n -> concat (chunk k n l) = l.
Proof.
  revert l; induction k as [|k IH]; intros l H; simpl.
  - destruct l; [reflexivity | discriminate].
  - rewrite IH by (rewrite length_skipn; simpl in H; lia).
    apply firstn_skipn.
Qed.

Lemma chunk_one (n : nat) (l : list A) :
  length l = n -> chunk n 1 l = map (fun x => [x]) l.
Proof.
  revert l; induction n as [|n IH]; intros [|x l] H; try discriminate;
    simpl; [reflexivity|].
  f_equal; apply IH; simpl in H; lia.
Qed.

Lemma chunk_single (n : nat) (l : list A) :
  length l = n -> chunk 1 n l = [l].
Proof.
  intros H; simpl; rewrite <- H, firstn_all; reflexivity.
Qed.

Lemma length_concat_all (n : nat) (ls : list (list A)) :
  Forall (fun c => length c = n) ls -> length (concat ls) = length ls * n.
Proof.
  induction 1 as [|c ls Hc _ IH]; simpl; [reflexivity|].
  rewrite length_app, IH, Hc; reflexivity.
Qed.

Lemma length_zipWith (f : A -> B -> C) (l : list A) (m : list B) :
  length (zipWith f l m) = Nat.min (length l) (length m).
Proof.
  revert m; induction l as [|x l IH]; intros [|y m]; simpl; auto.
Qed.

Lemma firstn_zipWith (f : A -> B -> C) (n : nat) (l : list A) (m : list B) :
  firstn n (zipWith f l m) = zipWith f (firstn n l) (firstn n m).
Proof.
  revert l m; induction n as [|n IH]; intros [|x l] [|y m]; simpl;
    try reflexivity.
  now rewrite IH.
Qed.

Lemma skipn_zipWith (f : A -> B -> C) (n : nat) (l : list A) (m : list B) :
  skipn n (zipWith f l m) = zipWith f (skipn n l) (skipn n m).
Proof.
  revert l m; induction n as [|n IH]; intros [|x l] [|y m]; simpl;
    try reflexivity.
  - now destruct (skipn n l).
  - apply IH.
Qed.

Lemma chunk_zipWith (f : A -> B -> C) (k n : nat) (l : list A) (m : list B) :
  chunk k n (zipWith f l m) = zipWith (zipWith f) (chunk k n l) (chunk k n m).
Proof.
  revert l m; induction k as [|k IH]; intros l m; simpl; [reflexivity|].
  now rewrite firstn_zipWith, skipn_zipWith, IH.
Qed.

Lemma chunk_map (f : A -> B) (k n : nat) (l : list A) :
  chunk k n (map f l) = map (map f) (chunk k n l).
Proof.
  revert l; induction k as [|k IH]; intros l; simpl; [reflexivity|].
  now rewrite firstn_map, skipn_map, IH.
Qed.

Lemma zipWith_app (f : A -> B -> C) (l l' : list A) (m m' : list B) :
  length l = length m ->
  zipWith f (l ++ l') (m ++ m') = zipWith f l m ++ zipWith f l' m'.
Proof.
  revert m; induction l as [|x l IH]; intros [|y m] H; try discriminate;
    simpl; [reflexivity|].
  f_equal; apply IH; simpl in H; lia.
Qed.

Lemma zipWith_concat (f : A -> B -> C) (ls : list (list A)) (ms : list (list B)) :
  Forall2 (fun l m => length l = length m) ls ms ->
  zipWith f (concat ls) (concat ms) = concat (zipWith (zipWith f) ls ms).
Proof.
  induction 1 as [|l m ls ms Hlm _ IH]; simpl; [reflexivity|].
  now rewrite zipWith_app, IH.
Qed.

Lemma zipWith_nth_seq (g : A -> B -> C) (da : A) (db : B) (n : nat)
    (l : list A) (m : list B) :
  length l = n -> length m = n ->
  map (fun i => g (nth i l da) (nth i m db)) (seq 0 n) = zipWith g l m.
Proof.
  revert l m; induction n as [|n IH]; intros [|x l] [|y m] Hl Hm;
    try discriminate; simpl; [reflexivity|].
  f_equal. rewrite <- seq_shift, map_map.
  apply IH; simpl in *; lia.
Qed.

Lemma zipWith_map_l (f : A -> B -> C) (x : A) (n : nat) (m : list B) :
  length m = n -> zipWith f (repeat x n) m = map (f x) m.
Proof.
  revert m; induction n as [|n IH]; intros [|y m] H; try discriminate;
    simpl; [reflexivity|].
  f_equal; apply IH; simpl in H; lia.
Qed.

Lemma Forall2_same_length (n : nat) (ls : list (list A)) (ms : list (list B)) :
  length ls = length ms ->
  Forall (fun c => length c = n) ls -> Forall (fun c => length c = n) ms ->
  Forall2 (fun l m => length l = length m) ls ms.
Proof.
  revert ms; induction ls as [|l ls IH]; intros [|m ms] H Hl Hm;
    try discriminate; constructor.
  - inversion Hl; inversion Hm; congruence.
  - inversion Hl; inversion Hm; apply IH; simpl in H; auto.
Qed.

End ListFacts.

(** ** The backend operations on the shapes the metrics use *)

Lemma bshape_same (s : list nat) : bshape s s = Some s.
Proof.
  induction s as [|n s IH]; simpl; [reflexivity|].
  unfold bdim; rewrite Nat.eqb_refl, IH; reflexivity.
Qed.

Lemma nth_chunk_length {A} (k n i : nat) (l : list A) :
  length l = k * n -> i < k -> length (nth i (chunk k n l) []) = n.
Proof.
  intros H Hi.
  assert (Hall := chunk_all k n l H).
  rewrite Forall_forall in Hall; apply Hall, nth_In.
  now rewrite length_chunk.
Qed.

Lemma bdata_same {A B C} (f : A -> B -> C) (s : list nat) :
  forall (da : list A) (db : list B),
    length da = numel s -> length db = numel s ->
    bdata f s s da db = zipWith f da db.
Proof.
  induction s as [|n s IH]; intros da db Ha Hb.
  - destruct da as [|x [|? ?]]; try discriminate.
    destruct db as [|y [|? ?]]; try discriminate.
    reflexivity.
  - change (numel (n :: s)) with (n * numel s) in Ha, Hb.
    cbn [bdata].
    replace (if n =? 1 then n else n) with n by (now destruct (n =? 1)).
    rewrite map_ext_in with
      (g := fun i => zipWith f (nth i (chunk n (numel s) da) [])
                       (nth i (chunk n (numel s) db) [])).
    + rewrite zipWith_nth_seq by apply length_chunk.
      rewrite <- zipWith_concat.
      * now rewrite !concat_chunk.
      * apply Forall2_same_length with (n := numel s);
          [now rewrite !length_chunk | now apply chunk_all ..].
    + intros i Hi; apply in_seq in Hi.
      replace (if n =? 1 then 0 else i) with i
        by (destruct (Nat.eqb_spec n 1); lia).
      apply IH; apply nth_chunk_length; lia.
Qed.

Lemma pad_rank_same (s : list nat) : pad_rank (length s) s = s.
Proof. unfold pad_rank; now rewrite Nat.sub_diag. Qed.

Lemma K_binop_same (f : fl -> fl -> fl) (a b : tensor fl) :
  wf a -> wf b -> shape a = shape b ->
  K_binop f a b = Ok (mkTensor (shape a) (zipWith f (data a) (data b))).
Proof.
  unfold wf, K_binop; intros Ha Hb Hs.
  rewrite <- Hs, Nat.max_id, pad_rank_same, bshape_same.
  rewrite bdata_same by congruence.
  reflexivity.
Qed.

Lemma map_seq_nth {A C} (g : A -> C) (d : A) (n : nat) (ls : list A) :
  length ls = n -> map (fun i => g (nth i ls d)) (seq 0 n) = map g ls.
Proof.
  revert ls; induction n as [|n IH]; intros [|x ls] H; try discriminate;
    simpl; [reflexivity|].
  f_equal. rewrite <- seq_shift, map_map.
  apply IH; simpl in H; lia.
Qed.

Lemma concat_map_singleton {A C} (g : A -> C) (l : list A) :
  concat (map (fun y => [g y]) l) = map g l.
Proof. induction l as [|y l IH]; simpl; [reflexivity | now rewrite IH]. Qed.

Lemma bdata_scalar_l {A B C} (f : A -> B -> C) (x : A) (n : nat) (l : list B) :
  length l = n -> bdata f [1] [n] [x] l = map (f x) l.
Proof.
  intros H; cbn [bdata numel fold_right Nat.eqb chunk firstn nth].
  rewrite map_ext_in with
    (g := fun i => (fun c => match c with y :: _ => [f x y] | [] => [] end)
                     (nth i (chunk n 1 l) [])).
  - rewrite (map_seq_nth
               (fun c => match c with y :: _ => [f x y] | [] => [] end)
               [] n (chunk n 1 l)) by apply length_chunk.
    rewrite chunk_one, map_map by assumption.
    apply concat_map_singleton.
  - intros i Hi; apply in_seq in Hi.
    replace (if n =? 1 then 0 else i) with i
      by (destruct (Nat.eqb_spec n 1); lia).
    reflexivity.
Qed.

Lemma bdata_scalar_r {A B C} (f : A -> B -> C) (y : B) (n : nat) (l : list A) :
  length l = n -> bdata f [n] [1] l [y] = map (fun x => f x y) l.
Proof.
  intros H; cbn [bdata numel fold_right Nat.eqb chunk firstn nth].
  replace (if n =? 1 then 1 else n) with n
    by (destruct (Nat.eqb_spec n 1); lia).
  rewrite map_ext_in with
    (g := fun i => (fun c => match c with x :: _ => [f x y] | [] => [] end)
                     (nth i (chunk n 1 l) [])).
  - rewrite (map_seq_nth
               (fun c => match c with x :: _ => [f x y] | [] => [] end)
               [] n (chunk n 1 l)) by apply length_chunk.
    rewrite chunk_one, map_map by assumption.
    apply (concat_map_singleton (fun x => f x y)).
  - intros i Hi; apply in_seq in Hi.
    replace (if n =? 1 then 0 else i) with i
      by (destruct (Nat.eqb_spec n 1); lia).
    destruct (nth i (chunk n 1 l) []); reflexivity.
Qed.

Lemma K_binop_scalar_l (f : fl -> fl -> fl) (c : Q) (n : nat) (l : list fl) :
  length l = n ->
  K_binop f (scalar c) (mkTensor [n] l) = Ok (mkTensor [n] (map (f (Fin c)) l)).
Proof.
  intros H; unfold K_binop, scalar, pad_rank; cbn [shape data length Nat.max Nat.sub repeat app].
  cbn [bshape]; unfold bdim.
  rewrite bdata_scalar_l by assumption.
  destruct (Nat.eqb_spec 1 n) as [<-|]; reflexivity.
Qed.

Lemma K_binop_scalar_r (f : fl -> fl -> fl) (c : Q) (n : nat) (l : list fl) :
  length l = n ->
  K_binop f (mkTensor [n] l) (scalar c)
  = Ok (mkTensor [n] (map (fun x => f x (Fin c)) l)).
Proof.
  intros H; unfold K_binop, scalar, pad_rank; cbn [shape data length Nat.max Nat.sub repeat app].
  cbn [bshape]; unfold bdim.
  rewrite bdata_scalar_r by assumption.
  destruct (Nat.eqb_spec n 1) as [->|]; [reflexivity|].
  destruct (Nat.eqb_spec n 1); [lia | reflexivity].
Qed.

Lemma K_binop_same_mk (f : fl -> fl -> fl) (s : list nat) (la lb : list fl) :
  length la = numel s -> length lb = numel s ->
  K_binop f (mkTensor s la) (mkTensor s lb) = Ok (mkTensor s (zipWith f la lb)).
Proof. intros Ha Hb; now apply K_binop_same. Qed.

Lemma numel2 (b n : nat) : numel [b; n] = b * n.
Proof. simpl; lia. Qed.

Lemma numel3 (b n m : nat) : numel [b; n; m] = b * (n * m).
Proof. simpl; lia. Qed.

Lemma vsum_one (l : list fl) : vsum 1 (map (fun x => [x]) l) = [fsum l].
Proof.
  unfold vsum; induction l as [|x l IH]; [reflexivity|].
  cbn [map fold_right]; rewrite IH; reflexivity.
Qed.

Lemma K_sum_rows (b n : nat) (l : list fl) :
  length l = b * n ->
  K_sum (mkTensor [b; n] l) 1 false = Ok (mkTensor [b] (map fsum (chunk b n l))).
Proof.
  intros H; unfold K_sum; cbn [shape data length Nat.ltb Nat.leb firstn skipn nth app numel fold_right].
  rewrite !Nat.mul_1_r.
  do 2 f_equal.
  rewrite map_ext_in with (g := fun blk => [fsum blk]).
  - apply concat_map_singleton.
  - intros blk Hin.
    assert (Hall := chunk_all b n l H).
    rewrite Forall_forall in Hall.
    rewrite chunk_one by auto.
    apply vsum_one.
Qed.

Lemma map_zipWith {A B C D} (p : C -> D) (q : A -> B -> C) (a : list A) (b : list B) :
  map p (zipWith q a b) = zipWith (fun x y => p (q x y)) a b.
Proof.
  revert b; induction a as [|x a IH]; intros [|y b]; simpl; try reflexivity.
  now rewrite IH.
Qed.

Lemma zipWith_zipWith {A B C D E} (h : C -> D -> E) (u : A -> B -> C)
    (v : A -> B -> D) (a : list A) (b : list B) :
  zipWith h (zipWith u a b) (zipWith v a b)
  = zipWith (fun x y => h (u x y) (v x y)) a b.
Proof.
  revert b; induction a as [|x a IH]; intros [|y b]; simpl; try reflexivity.
  now rewrite IH.
Qed.

Lemma zipWith_ext {A B C} (f g : A -> B -> C) (a : list A) (b : list B) :
  (forall x y, In x a -> In y b -> f x y = g x y) ->
  zipWith f a b = zipWith g a b.
Proof.
  revert b; induction a as [|x a IH]; intros [|y b] H; simpl; try reflexivity.
  f_equal; [apply H; now left | apply IH; intros; apply H; now right].
Qed.

Lemma zipWith_map_r {A B B' C} (f : A -> B' -> C) (g : B -> B')
    (a : list A) (b : list B) :
  zipWith f a (map g b) = zipWith (fun x y => f x (g y)) a b.
Proof.
  revert b; induction a as [|x a IH]; intros [|y b]; simpl; try reflexivity.
  now rewrite IH.
Qed.

Ltac len :=
  cbn [shape data numel fold_right] in *;
  repeat first [ rewrite length_map | rewrite length_zipWith
               | rewrite length_chunk ];
  try lia.

(** One backend call on tensors of the expected shapes. *)
Ltac kstep :=
  first [ rewrite K_binop_same_mk by len
        | rewrite K_sum_rows by len
        | rewrite K_binop_scalar_l by len
        | rewrite K_binop_scalar_r by len ];
  cbn [bind shape data].

Lemma iou_of_mask_rows (eps : Q) (b n : nat) (g m : list fl) :
  length g = b * n -> length m = b * n ->
  iou_of_mask eps (mkTensor [b; n] g) (mkTensor [b; n] m)
  = Ok (batch_mean (zipWith (iou_instance eps) (chunk b n g) (chunk b n m))).
Proof.
  intros Hg Hm; unfold iou_of_mask, K_mul, K_add, K_div.
  unfold K_cast, K_greater; cbn [shape data].
  repeat kstep.
  unfold K_mean, batch_mean; cbn [data].
  rewrite map_map, !chunk_map, !chunk_zipWith, !map_map.
  rewrite (map_zipWith _ (zipWith fmul)).
  rewrite (map_zipWith _ (zipWith fadd)).
  rewrite zipWith_zipWith.
  rewrite zipWith_ext with (g := iou_instance eps); [reflexivity|].
  intros x y _ _; unfold iou_instance, positive; now rewrite map_map.
Qed.

(** ** The metrics, row by row *)

Lemma zipWith_flip {A B C} (f : A -> B -> C) (a : list A) (b : list B) :
  zipWith f a b = zipWith (fun y x => f x y) b a.
Proof.
  revert b; induction a as [|x a IH]; intros [|y b]; simpl; try reflexivity.
  now rewrite IH.
Qed.

Lemma precision_rows (eps t : Q) (b n : nat) (g p : list fl) :
  length g = b * n -> length p = b * n ->
  precision eps (mkTensor [b; n] g) (mkTensor [b; n] p) t
  = Ok (batch_mean (zipWith (precision_instance eps)
                      (chunk b n g) (chunk b n (binarize t p)))).
Proof.
  intros Hg Hp; unfold precision, K_mul, K_add, K_sub, K_div.
  unfold K_cast, K_greater; cbn [shape data].
  repeat kstep.
  unfold K_mean, batch_mean; cbn [data].
  rewrite !map_map.
  change (map (fun x => b2f (fgreater x t)) p) with (binarize t p).
  rewrite <- (map_map (fun v => fgreater v 0) b2f), !chunk_map, !chunk_zipWith.
  rewrite (zipWith_flip (zipWith fsub) (chunk b n (binarize t p))).
  rewrite !map_map, !map_zipWith.
  rewrite !zipWith_zipWith.
  rewrite zipWith_ext with (g := precision_instance eps); [reflexivity|].
  intros x y _ _; unfold precision_instance, positive; now rewrite map_map.
Qed.

Lemma recall_rows (eps t : Q) (b n : nat) (g p : list fl) :
  length g = b * n -> length p = b * n ->
  recall eps (mkTensor [b; n] g) (mkTensor [b; n] p) t
  = Ok (batch_mean (zipWith (recall_instance eps)
                      (chunk b n g) (chunk b n (binarize t p)))).
Proof.
  intros Hg Hp; unfold recall, K_mul, K_add, K_sub, K_div.
  unfold K_cast, K_greater; cbn [shape data].
  repeat kstep.
  unfold K_mean, batch_mean; cbn [data].
  rewrite !map_map.
  change (map (fun x => b2f (fgreater x t)) p) with (binarize t p).
  rewrite <- (map_map (fun v => fgreater v 0) b2f), !chunk_map, !chunk_zipWith.
  rewrite !map_map, !map_zipWith.
  rewrite !zipWith_zipWith.
  rewrite zipWith_ext with (g := recall_instance eps); [reflexivity|].
  intros x y _ _; unfold recall_instance, positive; now rewrite map_map.
Qed.

Lemma iou_rows (eps t : Q) (b n : nat) (g p : list fl) :
  length g = b * n -> length p = b * n ->
  iou eps (mkTensor [b; n] g) (mkTensor [b; n] p) t
  = Ok (batch_mean (zipWith (iou_instance eps)
                      (chunk b n g) (chunk b n (binarize t p)))).
Proof.
  intros Hg Hp.
  change (iou eps (mkTensor [b; n] g) (mkTensor [b; n] p) t)
    with (iou_of_mask eps (mkTensor [b; n] g)
            (mkTensor [b; n] (map b2f (map (fun v => fgreater v t) p)))).
  rewrite iou_of_mask_rows by len.
  now rewrite map_map.
Qed.

Lemma iou_acc_rows (eps t : Q) (b n : nat) (g p : list fl) :
  length g = b * n -> length p = b * n ->
  iou_acc eps (mkTensor [b; n] g) (mkTensor [b; n] p) t
  = Ok (batch_mean
          (map (fun v => b2f (fgreater v (1 # 2)))
             (zipWith (iou_instance eps)
                (chunk b n g) (chunk b n (binarize t p))))).
Proof.
  intros Hg Hp; unfold iou_acc, K_mul, K_add, K_div.
  unfold K_cast, K_greater; cbn [shape data].
  repeat kstep.
  unfold K_mean, batch_mean; cbn [data].
  rewrite !map_map.
  change (map (fun x => b2f (fgreater x t)) p) with (binarize t p).
  rewrite <- (map_map (fun v => fgreater v 0) b2f), !chunk_map, !chunk_zipWith.
  rewrite !map_map, !map_zipWith.
  rewrite ?zipWith_zipWith, ?map_zipWith.
  rewrite zipWith_ext with
    (g := fun x y => b2f (fgreater (iou_instance eps x y) (1 # 2)));
    [reflexivity|].
  intros x y _ _; unfold iou_instance, positive; now rewrite map_map.
Qed.

(** ** Arithmetic of float values *)

Lemma Qplus_comm_eq (x y : Q) : (x + y)%Q = (y + x)%Q.
Proof. unfold Qplus; f_equal; [ring | apply Pos.mul_comm]. Qed.

Lemma fadd_comm (a b : fl) : fadd a b = fadd b a.
Proof.
  destruct a, b; simpl; try reflexivity.
  f_equal; apply Qplus_comm_eq.
Qed.

Lemma Qltb_lt (x y : Q) : Qltb x y = true <-> (x < y)%Q.
Proof.
  unfold Qltb; rewrite negb_true_iff, <- not_true_iff_false, Qle_bool_iff.
  split; [apply Qnot_le_lt | apply Qlt_not_le].
Qed.

Lemma Qltb_ge (x y : Q) : Qltb x y = false <-> (y <= x)%Q.
Proof.
  unfold Qltb; rewrite negb_false_iff; apply Qle_bool_iff.
Qed.

Lemma Qzerob_false (x : Q) : ~ (x == 0)%Q -> Qzerob x = false.
Proof.
  intros H; unfold Qzerob; apply not_true_iff_false.
  now rewrite Qeq_bool_iff.
Qed.

Lemma fsum_b2f (bs : list bool) :
  fsum (map b2f bs) = Fin (inject_Z (Z.of_nat (length (filter id bs)))).
Proof.
  induction bs as [|c bs IH]; [reflexivity|].
  cbn [map fsum fold_right]; fold (fsum (map b2f bs)); rewrite IH.
  destruct c; cbn [b2f fadd filter id length]; unfold Qplus, inject_Z;
    cbn [Qnum Qden]; f_equal; f_equal; lia.
Qed.

Lemma filter_map_length {A B} (f : A -> B) (p : B -> bool) (l : list A) :
  length (filter p (map f l)) = length (filter (fun x => p (f x)) l).
Proof.
  induction l as [|x l IH]; simpl; [reflexivity|].
  destruct (p (f x)); simpl; now rewrite IH.
Qed.

Lemma Forall_chunk {A} (P : A -> Prop) (k n : nat) (l : list A) :
  Forall P l -> Forall (Forall P) (chunk k n l).
Proof.
  revert l; induction k as [|k IH]; intros l H; simpl; constructor.
  - rewrite <- (firstn_skipn n l) in H; now apply Forall_app in H.
  - apply IH; rewrite <- (firstn_skipn n l) in H; now apply Forall_app in H.
Qed.

Lemma positive_fmax0 (c : bool) (a : fl) :
  bit a -> positive (fsub (b2f c) a) = fmax0 (fsub (b2f c) a).
Proof. intros [-> | ->]; destruct c; reflexivity. Qed.

Lemma fp_indicator_is_max (t : Q) (g p : list fl) :
  Forall bit g ->
  map positive (zipWith fsub (binarize t p) g)
  = map fmax0 (zipWith fsub (binarize t p) g).
Proof.
  intros Hg; revert p; induction Hg as [|a g Ha _ IH]; intros [|y p];
    try reflexivity.
  cbn [binarize map zipWith]; f_equal; [now apply positive_fmax0 | apply IH].
Qed.

(** ** Functional correctness of [iou], [precision] and [iou_acc] *)

(** C2: for ground truth and prediction tensors of the same shape
    (batch, N) and every threshold, [iou] returns the batch mean of
    sum(gt * [pred > t]) / (sum([(gt + [pred > t]) > 0]) + eps) taken per
    instance (row). *)
Theorem iou_is_batch_mean (eps t : Q) (gt pred : tensor fl) (b n : nat) :
  wf gt -> wf pred -> shape gt = [b; n] -> shape pred = [b; n] ->
  iou eps gt pred t
  = Ok (batch_mean (zipWith (spec_iou_instance eps t) (rows gt) (rows pred))).
Proof.
  destruct gt as [sg g], pred as [sp p]; unfold wf, rows; cbn [shape data].
  intros Hg Hp -> ->; cbn [nth]; rewrite numel2 in *.
  rewrite iou_rows by assumption.
  unfold binarize at 1; rewrite chunk_map, zipWith_map_r.
  rewrite zipWith_ext with (g := spec_iou_instance eps t); [reflexivity|].
  intros x y _ _; unfold iou_instance, spec_iou_instance.
  now rewrite fadd_comm.
Qed.

Lemma iou_is_batch_mean_witness :
  wf y_example /\ wf x_example /\
  iou eps7 y_example x_example 0.6
  = Ok (batch_mean (zipWith (spec_iou_instance eps7 0.6)
                      (rows y_example) (rows x_example))).
Proof.
  split; [reflexivity | split; [reflexivity|]].
  apply (iou_is_batch_mean eps7 0.6 y_example x_example 3 3); reflexivity.
Defined.

(** C5: for a ground truth with values in {0,1} and a prediction of the
    same shape (batch, N), [precision] returns the batch mean of
    tp / (tp + fp + eps) with tp = sum(gt * binarized) and
    fp = sum(max(binarized - gt, 0)) per instance. *)
Theorem precision_is_batch_mean (eps t : Q) (gt pred : tensor fl) (b n : nat) :
  wf gt -> wf pred -> shape gt = [b; n] -> shape pred = [b; n] ->
  binary bit gt ->
  precision eps gt pred t
  = Ok (batch_mean
          (zipWith (spec_precision_instance eps t) (rows gt) (rows pred))).
Proof.
  destruct gt as [sg g], pred as [sp p]; unfold wf, rows, binary.
  cbn [shape data].
  intros Hg Hp -> -> Hbit; cbn [nth]; rewrite numel2 in *.
  rewrite precision_rows by assumption.
  unfold binarize at 1; rewrite chunk_map, zipWith_map_r.
  rewrite zipWith_ext with (g := spec_precision_instance eps t);
    [reflexivity|].
  intros x y Hx _; unfold precision_instance, spec_precision_instance.
  cbv zeta; rewrite <- fp_indicator_is_max; [reflexivity|].
  assert (Hall := Forall_chunk bit b n g Hbit).
  rewrite Forall_forall in Hall; now apply Hall.
Qed.

Ltac bits :=
  unfold binary; cbn;
  repeat (constructor; [first [left; reflexivity | right; reflexivity] | ]);
  constructor.

Lemma precision_is_batch_mean_witness :
  wf y_example /\ wf x_example /\ binary bit y_example /\
  precision eps7 y_example x_example 0.6
  = Ok (batch_mean (zipWith (spec_precision_instance eps7 0.6)
                      (rows y_example) (rows x_example))).
Proof.
  split; [reflexivity | split; [reflexivity | split; [bits|]]].
  apply (precision_is_batch_mean eps7 0.6 y_example x_example 3 3);
    first [reflexivity | bits].
Defined.

(** C4: [iou_acc] returns the fraction of the instances of the batch whose
    IoU, computed as in [iou] with the epsilon in the denominator, is
    strictly greater than 0.5; a finite IoU counts exactly when it is
    above 1/2 (so an IoU equal to 0.5 does not), whatever the threshold. *)
Theorem iou_acc_is_fraction (eps t : Q) (gt pred : tensor fl) (b n : nat) :
  wf gt -> wf pred -> shape gt = [b; n] -> shape pred = [b; n] ->
  iou_acc eps gt pred t
  = Ok (fraction_above_half
          (zipWith (spec_iou_instance eps t) (rows gt) (rows pred)))
  /\ (forall v : Q, fgreater (Fin v) (1 # 2) = true <-> (1 # 2 < v)%Q)
  /\ (forall v : Q, (v == 1 # 2)%Q -> fgreater (Fin v) (1 # 2) = false).
Proof.
  intros Hg Hp Hsg Hsp; split; [|split].
  - destruct gt as [sg g], pred as [sp p]; unfold wf, rows in *.
    cbn [shape data] in *; subst sg sp; cbn [nth]; rewrite numel2 in *.
    rewrite iou_acc_rows by assumption.
    unfold binarize at 1; rewrite chunk_map, zipWith_map_r.
    rewrite zipWith_ext with (g := spec_iou_instance eps t).
    + unfold batch_mean, fraction_above_half.
      rewrite <- (map_map (fun v => fgreater v (1 # 2)) b2f), fsum_b2f.
      rewrite filter_map_length, !length_map; reflexivity.
    + intros x y _ _; unfold iou_instance, spec_iou_instance.
      now rewrite fadd_comm.
  - intros v; apply Qltb_lt.
  - intros v Hv; cbn [fgreater]; apply Qltb_ge; rewrite Hv; apply Qle_refl.
Qed.

Lemma iou_acc_is_fraction_witness :
  wf y_example /\ wf x_example /\
  iou_acc eps7 y_example x_example 0.6
  = Ok (fraction_above_half
          (zipWith (spec_iou_instance eps7 0.6)
             (rows y_example) (rows x_example))).
Proof.
  split; [reflexivity | split; [reflexivity|]].
  apply (iou_acc_is_fraction eps7 0.6 y_example x_example 3 3); reflexivity.
Defined.

(** ** Ranges of the per-instance ratios *)

Lemma bit_cases (v : fl) :
  bit v -> exists q : Q, v = Fin q /\ (0 <= q <= 1)%Q.
Proof. intros [-> | ->]; eexists; (split; [reflexivity | lra]). Qed.

Lemma bit_b2f (c : bool) : bit (b2f c).
Proof. destruct c; [now right | now left]. Qed.

Lemma Forall_bit_binarize (t : Q) (p : list fl) : Forall bit (binarize t p).
Proof. unfold binarize; apply Forall_map, Forall_forall; intros; apply bit_b2f. Qed.

Lemma fsum_positive (l : list fl) :
  exists q : Q, fsum (map positive l) = Fin q /\ (0 <= q)%Q.
Proof.
  induction l as [|v l (q & Hq & Hpos)]; [exists 0%Q; split; [reflexivity | lra]|].
  cbn [map fsum fold_right]; fold (fsum (map positive l)); rewrite Hq.
  unfold positive; destruct (fgreater v 0); cbn [b2f fadd];
    eexists; (split; [reflexivity | lra]).
Qed.

Lemma fsum_products (g m : list fl) :
  Forall bit g -> Forall bit m ->
  exists q : Q, fsum (zipWith fmul g m) = Fin q /\ (0 <= q)%Q.
Proof.
  intros Hg; revert m; induction Hg as [|a g Ha _ IH]; intros m Hm.
  - exists 0%Q; split; [reflexivity | lra].
  - destruct Hm as [|c m Hc Hm]; [exists 0%Q; split; [reflexivity | lra]|].
    destruct (IH m Hm) as (q & Hq & Hpos).
    cbn [zipWith fsum fold_right]; fold (fsum (zipWith fmul g m)); rewrite Hq.
    destruct Ha as [-> | ->], Hc as [-> | ->]; cbn [fmul fadd];
      eexists; (split; [reflexivity | lra]).
Qed.

Lemma iou_sums (g m : list fl) :
  Forall bit g -> Forall bit m ->
  exists qi qu : Q,
    fsum (zipWith fmul g m) = Fin qi
    /\ fsum (map positive (zipWith fadd g m)) = Fin qu
    /\ (0 <= qi <= qu)%Q.
Proof.
  intros Hg; revert m; induction Hg as [|a g Ha _ IH]; intros m Hm.
  - exists 0%Q, 0%Q; repeat split; lra.
  - destruct Hm as [|c m Hc Hm]; [exists 0%Q, 0%Q; repeat split; lra|].
    destruct (IH m Hm) as (qi & qu & Hi & Hu & Hle).
    cbn [zipWith map fsum fold_right].
    fold (fsum (zipWith fmul g m)).
    fold (fsum (map positive (zipWith fadd g m))).
    rewrite Hi, Hu.
    destruct Ha as [-> | ->], Hc as [-> | ->]; cbn;
      do 2 eexists; (split; [reflexivity | split; [reflexivity | lra]]).
Qed.

Lemma fdiv_ratio (x y : Q) :
  (0 <= x <= y)%Q -> (0 < y)%Q -> unit_ratio (fdiv (Fin x) (Fin y)).
Proof.
  intros Hx Hy; cbn [fdiv].
  rewrite Qzerob_false by lra.
  exists x, y; split; [reflexivity | split; [lra | split; [lra | split]]].
  - apply Qle_shift_div_l; lra.
  - apply Qle_shift_div_r; lra.
Qed.

Lemma iou_instance_ratio (eps : Q) (g m : list fl) :
  (0 < eps)%Q -> Forall bit g -> Forall bit m ->
  unit_ratio (iou_instance eps g m).
Proof.
  intros Heps Hg Hm.
  destruct (iou_sums g m Hg Hm) as (qi & qu & Hi & Hu & Hle).
  unfold iou_instance; rewrite Hi, Hu; cbn [fadd].
  apply fdiv_ratio; lra.
Qed.

Lemma precision_instance_ratio (eps : Q) (g p : list fl) :
  (0 < eps)%Q -> Forall bit g -> Forall bit p ->
  unit_ratio (precision_instance eps g p).
Proof.
  intros Heps Hg Hp.
  destruct (fsum_products g p Hg Hp) as (qt & Ht & Htpos).
  destruct (fsum_positive (zipWith fsub p g)) as (qf & Hf & Hfpos).
  unfold precision_instance; cbv zeta; rewrite Ht, Hf; cbn [fadd].
  apply fdiv_ratio; lra.
Qed.

Lemma recall_instance_ratio (eps : Q) (g p : list fl) :
  (0 < eps)%Q -> Forall bit g -> Forall bit p ->
  unit_ratio (recall_instance eps g p).
Proof.
  intros Heps Hg Hp.
  destruct (fsum_products g p Hg Hp) as (qt & Ht & Htpos).
  destruct (fsum_positive (zipWith fsub g p)) as (qf & Hf & Hfpos).
  unfold recall_instance; cbv zeta; rewrite Ht, Hf; cbn [fadd].
  apply fdiv_ratio; lra.
Qed.

Lemma Forall_zipWith {A B C} (P : A -> Prop) (R : B -> Prop) (S : C -> Prop)
    (f : A -> B -> C) (a : list A) (b : list B) :
  (forall x y, P x -> R y -> S (f x y)) ->
  Forall P a -> Forall R b -> Forall S (zipWith f a b).
Proof.
  intros H Ha; revert b; induction Ha as [|x a Hx _ IH]; intros b Hb;
    [constructor|].
  destruct Hb as [|y b Hy Hb]; constructor; auto.
Qed.

Lemma fsum_bounded (l : list fl) :
  Forall (fun v => exists q : Q, v = Fin q /\ (0 <= q <= 1)%Q) l ->
  exists s : Q,
    fsum l = Fin s /\ (0 <= s <= inject_Z (Z.of_nat (length l)))%Q.
Proof.
  induction 1 as [|v l (q & -> & Hq) _ (s & Hs & Hb)].
  - exists 0%Q; split; [reflexivity|].
    change (inject_Z (Z.of_nat (length (@nil fl)))) with 0%Q; lra.
  - cbn [fsum fold_right]; fold (fsum l); rewrite Hs; cbn [fadd].
    eexists; split; [reflexivity|].
    cbn [length]; rewrite Nat2Z.inj_succ; unfold Z.succ.
    rewrite inject_Z_plus; change (inject_Z 1) with 1%Q.
    set (k := inject_Z (Z.of_nat (length l))) in *; lra.
Qed.

Lemma batch_mean_unit (l : list fl) :
  Forall (fun v => exists q : Q, v = Fin q /\ (0 <= q <= 1)%Q) l ->
  l <> [] ->
  exists q : Q, batch_mean l = Fin q /\ (0 <= q <= 1)%Q.
Proof.
  intros Hall Hne.
  destruct (fsum_bounded l Hall) as (s & Hs & Hb).
  assert (Hn : (0 < inject_Z (Z.of_nat (length l)))%Q).
  { destruct l; [congruence|].
    change 0%Q with (inject_Z 0); rewrite <- Zlt_Qlt; cbn [length]; lia. }
  unfold batch_mean; rewrite Hs; cbn [fdiv].
  set (k := inject_Z (Z.of_nat (length l))) in *.
  rewrite Qzerob_false by lra.
  eexists; split; [reflexivity | split].
  - apply Qle_shift_div_l; lra.
  - apply Qle_shift_div_r; lra.
Qed.

(** ** The backend operations on batches of square images *)

Lemma K_reshape_infer3 {A} (x : tensor A) (p q : nat) :
  K_reshape x [(-1)%Z; Z.of_nat p; Z.of_nat q]
  = if p * q =? 0 then InvalidArgument
    else if numel (shape x) mod (p * q) =? 0
         then Ok (mkTensor [numel (shape x) / (p * q); p; q] (data x))
         else InvalidArgument.
Proof.
  unfold K_reshape.
  assert (Hp : (Z.of_nat p <? -1)%Z = false) by (apply Z.ltb_ge; lia).
  assert (Hq : (Z.of_nat q <? -1)%Z = false) by (apply Z.ltb_ge; lia).
  assert (Hp' : (Z.of_nat p =? -1)%Z = false) by (apply Z.eqb_neq; lia).
  assert (Hq' : (Z.of_nat q =? -1)%Z = false) by (apply Z.eqb_neq; lia).
  cbn [existsb count_occ filter map].
  rewrite Hp, Hq, Hp', Hq'.
  change (-1 <? -1)%Z with false; change (-1 =? -1)%Z with true.
  cbn [orb negb map filter].
  destruct (Z.eq_dec (-1) (-1)) as [_|]; [|congruence].
  destruct (Z.eq_dec (Z.of_nat p) (-1)); [lia|].
  destruct (Z.eq_dec (Z.of_nat q) (-1)); [lia|].
  rewrite !Nat2Z.id; cbn [numel fold_right]; rewrite !Nat.mul_1_r.
  reflexivity.
Qed.

Lemma K_reshape_infer2 {A} (x : tensor A) (p : nat) :
  K_reshape x [(-1)%Z; Z.of_nat p]
  = if p =? 0 then InvalidArgument
    else if numel (shape x) mod p =? 0
         then Ok (mkTensor [numel (shape x) / p; p] (data x))
         else InvalidArgument.
Proof.
  unfold K_reshape.
  assert (Hp : (Z.of_nat p <? -1)%Z = false) by (apply Z.ltb_ge; lia).
  assert (Hp' : (Z.of_nat p =? -1)%Z = false) by (apply Z.eqb_neq; lia).
  cbn [existsb count_occ filter map].
  rewrite Hp, Hp'.
  change (-1 <? -1)%Z with false; change (-1 =? -1)%Z with true.
  cbn [orb negb map filter].
  destruct (Z.eq_dec (-1) (-1)) as [_|]; [|congruence].
  destruct (Z.eq_dec (Z.of_nat p) (-1)); [lia|].
  rewrite !Nat2Z.id; cbn [numel fold_right]; rewrite !Nat.mul_1_r.
  reflexivity.
Qed.

Lemma grid_length_concat {A} (d : nat) (img : list (list A)) :
  grid d img -> length (concat img) = d * d.
Proof. intros [Hl Hall]; rewrite (length_concat_all d) by assumption; lia. Qed.

Lemma images_grid {A} (b d : nat) (l : list A) :
  length l = b * (d * d) -> Forall (grid d) (images b d l).
Proof.
  intros H; unfold images; apply Forall_map.
  assert (Hall := chunk_all b (d * d) l H).
  rewrite Forall_forall in *; intros blk Hin; split.
  - apply length_chunk.
  - apply chunk_all; auto.
Qed.

Lemma length_images {A} (b d : nat) (l : list A) : length (images b d l) = b.
Proof. unfold images; now rewrite length_map, length_chunk. Qed.

Lemma concat_images {A} (b d : nat) (l : list A) :
  length l = b * (d * d) -> concat (map (@concat A) (images b d l)) = l.
Proof.
  intros H; unfold images; rewrite map_map.
  rewrite map_ext_in with (g := fun blk => blk).
  - rewrite map_id; now apply concat_chunk.
  - intros blk Hin; apply concat_chunk.
    assert (Hall := chunk_all b (d * d) l H).
    rewrite Forall_forall in Hall; auto.
Qed.

Lemma concat_concat_map {A} (ls : list (list (list A))) :
  concat (map (@concat A) ls) = concat (concat ls).
Proof.
  induction ls as [|l ls IH]; simpl; [reflexivity|].
  now rewrite concat_app, IH.
Qed.

Lemma concat_map_concat {A B} (f : A -> list B) (ls : list (list A)) :
  concat (map f (concat ls)) = concat (map (fun l => concat (map f l)) ls).
Proof.
  induction ls as [|l ls IH]; simpl; [reflexivity|].
  now rewrite map_app, concat_app, IH.
Qed.

Lemma Forall_concat {A} (P : A -> Prop) (ls : list (list A)) :
  Forall (Forall P) ls -> Forall P (concat ls).
Proof.
  induction 1 as [|l ls Hl _ IH]; simpl; [constructor|].
  apply Forall_app; now split.
Qed.

Lemma grids_rows {A} (d : nat) (imgs : list (list (list A))) :
  Forall (grid d) imgs ->
  Forall (fun row => length row = d) (concat imgs)
  /\ length (concat imgs) = length imgs * d.
Proof.
  intros H; split.
  - apply Forall_concat; eapply Forall_impl; [|exact H]; now intros img [_ ?].
  - apply length_concat_all; eapply Forall_impl; [|exact H]; now intros img [? _].
Qed.

Lemma length_vsum (d : nat) (img : list (list fl)) :
  Forall (fun row => length row = d) img -> length (vsum d img) = d.
Proof.
  unfold vsum; induction 1 as [|row img Hrow _ IH]; cbn [fold_right].
  - apply repeat_length.
  - rewrite length_zipWith, IH, Hrow; apply Nat.min_id.
Qed.

Lemma K_sum_axis1 (b d : nat) (imgs : list (list (list fl))) :
  length imgs = b -> Forall (grid d) imgs ->
  K_sum (mkTensor [b; d; d] (concat (map (@concat fl) imgs))) 1 true
  = Ok (mkTensor [b; 1; d] (concat (map (vsum d) imgs))).
Proof.
  intros Hb Hg; unfold K_sum.
  cbn [shape data length Nat.ltb Nat.leb firstn skipn nth app numel fold_right].
  rewrite !Nat.mul_1_r.
  rewrite chunk_concat.
  - rewrite map_map; do 3 f_equal.
    apply map_ext_in; intros img Hin.
    rewrite Forall_forall in Hg; destruct (Hg img Hin) as [Hl Hall].
    now rewrite chunk_concat.
  - now rewrite length_map.
  - apply Forall_map; eapply Forall_impl; [|exact Hg].
    intros img; apply grid_length_concat.
Qed.

Lemma K_sum_axis2 (b d : nat) (imgs : list (list (list fl))) :
  length imgs = b -> Forall (grid d) imgs ->
  K_sum (mkTensor [b; d; d] (concat (map (@concat fl) imgs))) 2 true
  = Ok (mkTensor [b; d; 1] (map fsum (concat imgs))).
Proof.
  intros Hb Hg; unfold K_sum.
  cbn [shape data length Nat.ltb Nat.leb firstn skipn nth app numel fold_right].
  rewrite !Nat.mul_1_r.
  destruct (grids_rows d imgs Hg) as [Hrows Hlen].
  rewrite concat_concat_map, chunk_concat by (auto; lia).
  do 2 f_equal.
  rewrite map_ext_in with (g := fun blk => [fsum blk]).
  - apply concat_map_singleton.
  - intros row Hin; rewrite Forall_forall in Hrows.
    rewrite chunk_one by auto; apply vsum_one.
Qed.

Lemma concat_repeat_singleton {A} (x : A) (n : nat) :
  concat (repeat [x] n) = repeat x n.
Proof. symmetry; apply repeat_to_concat. Qed.

Lemma K_repeat_axis1 {A} (b d : nat) (hs : list (list A)) :
  0 < d -> length hs = b -> Forall (fun h => length h = d) hs ->
  K_repeat_elements (mkTensor [b; 1; d] (concat hs)) d 1
  = Ok (mkTensor [b; d; d] (concat (map (fun h => concat (repeat h d)) hs))).
Proof.
  intros Hd Hb Hall; unfold K_repeat_elements.
  assert (E : (0 <? d) = true) by (apply Nat.ltb_lt; lia).
  cbn [shape data length firstn skipn nth app numel fold_right].
  rewrite E; cbn [Nat.ltb Nat.leb andb].
  rewrite !Nat.mul_1_r, !Nat.mul_1_l.
  rewrite chunk_concat by auto.
  do 3 f_equal.
  apply map_ext_in; intros h Hin.
  rewrite Forall_forall in Hall.
  rewrite chunk_single by auto.
  cbn [flat_map]; now rewrite app_nil_r.
Qed.

Lemma K_repeat_axis2 {A} (b d : nat) (vs : list A) :
  0 < d -> length vs = b * d ->
  K_repeat_elements (mkTensor [b; d; 1] vs) d 2
  = Ok (mkTensor [b; d; d] (concat (map (fun v => repeat v d) vs))).
Proof.
  intros Hd Hlen; unfold K_repeat_elements.
  assert (E : (0 <? d) = true) by (apply Nat.ltb_lt; lia).
  cbn [shape data length firstn skipn nth app numel fold_right].
  rewrite E; cbn [Nat.ltb Nat.leb andb].
  rewrite !Nat.mul_1_r, !Nat.mul_1_l.
  rewrite chunk_one by lia.
  rewrite map_map; do 3 f_equal.
  apply map_ext; intros v.
  cbn [chunk firstn flat_map]; rewrite app_nil_r.
  apply concat_repeat_singleton.
Qed.

Lemma zipWith_map_repeat {A B C D} (f : B -> C -> D) (u : A -> B) (h : C)
    (n : nat) (l : list A) :
  length l = n ->
  zipWith f (map u l) (repeat h n) = map (fun x => f (u x) h) l.
Proof.
  revert l; induction n as [|n IH]; intros [|x l] H; try discriminate;
    simpl; [reflexivity|].
  f_equal; apply IH; simpl in H; lia.
Qed.

Lemma mask_img_product (d : nat) (img : list (list fl)) :
  grid d img ->
  zipWith fmul
    (concat (map (fun row => repeat (positive (fsum row)) d) img))
    (concat (repeat (map positive (vsum d img)) d))
  = mask_img d img.
Proof.
  intros [Hl Hall].
  assert (Hh : length (map positive (vsum d img)) = d)
    by (rewrite length_map; now apply length_vsum).
  rewrite zipWith_concat.
  - rewrite zipWith_map_repeat by assumption.
    unfold mask_img; f_equal; apply map_ext; intros row.
    now apply zipWith_map_l.
  - apply Forall2_same_length with (n := d).
    + now rewrite length_map, repeat_length.
    + apply Forall_map, Forall_forall; intros; apply repeat_length.
    + apply Forall_forall; intros h Hin; apply repeat_spec in Hin; now subst.
Qed.

Lemma reshape_to_images {A} (b d : nat) (l : list A) :
  0 < d ->
  K_reshape (mkTensor [b; d * d] l) [(-1)%Z; Z.of_nat d; Z.of_nat d]
  = Ok (mkTensor [b; d; d] l).
Proof.
  intros Hd; rewrite K_reshape_infer3; cbn [shape data]; rewrite numel2.
  destruct (Nat.eqb_spec (d * d) 0) as [E|E]; [nia|].
  rewrite Nat.Div0.mod_mul, Nat.div_mul by assumption.
  reflexivity.
Qed.

Lemma reshape_to_rows {A} (b d : nat) (l : list A) :
  0 < d ->
  K_reshape (mkTensor [b; d; d] l) [(-1)%Z; Z.of_nat (d * d)]
  = Ok (mkTensor [b; d * d] l).
Proof.
  intros Hd; rewrite K_reshape_infer2; cbn [shape data]; rewrite numel3.
  destruct (Nat.eqb_spec (d * d) 0) as [E|E]; [nia|].
  rewrite Nat.Div0.mod_mul, Nat.div_mul by assumption.
  reflexivity.
Qed.

Lemma zipWith_map_diag {A B C D} (f : B -> C -> D) (u : A -> B) (v : A -> C)
    (l : list A) :
  zipWith f (map u l) (map v l) = map (fun x => f (u x) (v x)) l.
Proof. induction l as [|x l IH]; simpl; [reflexivity | now rewrite IH]. Qed.

Lemma length_mask_rows (d : nat) (img : list (list fl)) :
  grid d img ->
  length (concat (map (fun row => repeat (positive (fsum row)) d) img)) = d * d.
Proof.
  intros [Hl _]; rewrite (length_concat_all d).
  - now rewrite length_map, Hl.
  - apply Forall_map, Forall_forall; intros; apply repeat_length.
Qed.

Lemma length_mask_cols (d : nat) (img : list (list fl)) :
  grid d img ->
  length (concat (repeat (map positive (vsum d img)) d)) = d * d.
Proof.
  intros [_ Hall]; rewrite (length_concat_all d).
  - now rewrite repeat_length.
  - apply Forall_forall; intros h Hin; apply repeat_spec in Hin; subst.
    rewrite length_map; now apply length_vsum.
Qed.

Lemma iou_bbox_mask_images (t : Q) (b d : nat) (l : list fl) :
  0 < d -> length l = b * (d * d) ->
  iou_bbox_mask (mkTensor [b; d * d] l) t d
  = Ok (mkTensor [b; d * d]
          (concat (map (mask_img d) (images b d (binarize t l))))).
Proof.
  intros Hd Hlen; unfold iou_bbox_mask, K_cast, K_greater; cbn [shape data].
  rewrite map_map; change (map (fun x => b2f (fgreater x t)) l) with (binarize t l).
  assert (HL : length (binarize t l) = b * (d * d))
    by (unfold binarize; now rewrite length_map).
  set (imgs := images b d (binarize t l)).
  assert (Hg : Forall (grid d) imgs) by now apply images_grid.
  assert (Hb : length imgs = b) by apply length_images.
  destruct (grids_rows d imgs Hg) as [Hrows Hrl].
  rewrite reshape_to_images by assumption; cbn [bind].
  rewrite <- (concat_images b d (binarize t l)) by assumption; fold imgs.
  rewrite K_sum_axis1 by assumption; cbn [bind shape data].
  rewrite map_map, concat_map, map_map.
  rewrite (K_repeat_axis1 b d) ; cbn [bind].
  2: assumption.
  2: now rewrite length_map.
  2: { apply Forall_map; eapply Forall_impl; [|exact Hg].
       intros img [_ Hall]; rewrite !length_map; now apply length_vsum. }
  rewrite K_sum_axis2 by assumption; cbn [bind shape data].
  rewrite K_repeat_axis2 by (rewrite ?length_map; lia); cbn [bind].
  unfold K_mul; rewrite K_binop_same_mk; cbn [bind].
  - rewrite !map_map, concat_map_concat.
    rewrite zipWith_concat.
    + rewrite zipWith_map_diag.
      rewrite map_ext_in with (g := mask_img d).
      * now apply reshape_to_rows.
      * intros img Hin; rewrite Forall_forall in Hg.
        now rewrite <- mask_img_product by auto.
    + apply Forall2_same_length with (n := d * d).
      * now rewrite !length_map.
      * apply Forall_map; eapply Forall_impl; [|exact Hg].
        intros img; apply length_mask_rows.
      * apply Forall_map; eapply Forall_impl; [|exact Hg].
        intros img; apply length_mask_cols.
  - rewrite !map_map, concat_map_concat, numel3.
    rewrite (length_concat_all (d * d)).
    + now rewrite length_map, Hb.
    + apply Forall_map; eapply Forall_impl; [|exact Hg].
      intros img; apply length_mask_rows.
  - rewrite !map_map, numel3.
    rewrite (length_concat_all (d * d)).
    + now rewrite length_map, Hb.
    + apply Forall_map; eapply Forall_impl; [|exact Hg].
      intros img; apply length_mask_cols.
Qed.

(** ** Cells of the mask *)

Lemma nth_chunk {A} (k n i j : nat) (l : list A) (dflt : A) :
  i < k -> j < n ->
  nth j (nth i (chunk k n l) []) dflt = nth (i * n + j) l dflt.
Proof.
  revert i l; induction k as [|k IH]; intros i l Hi Hj; [lia|].
  destruct i as [|i]; cbn [chunk nth].
  - rewrite nth_firstn.
    destruct (Nat.ltb_spec j n); [reflexivity | lia].
  - rewrite IH by lia.
    rewrite nth_skipn; f_equal; lia.
Qed.

Lemma nth_images {A} (b d r i j : nat) (l : list A) (dflt : A) :
  r < b -> i < d -> j < d ->
  nth j (nth i (nth r (images b d l) []) []) dflt
  = nth ((r * d + i) * d + j) l dflt.
Proof.
  intros Hr Hi Hj; unfold images.
  rewrite nth_indep with (d' := chunk d d [])
    by (now rewrite length_map, length_chunk).
  rewrite map_nth, nth_chunk by assumption.
  rewrite nth_chunk by (try assumption; nia).
  f_equal; lia.
Qed.

Lemma nth_concat_all {A} (n i j : nat) (ls : list (list A)) (dflt : A) :
  Forall (fun c => length c = n) ls -> j < n ->
  nth (i * n + j) (concat ls) dflt = nth j (nth i ls []) dflt.
Proof.
  intros Hall Hj; revert i; induction Hall as [|c ls Hc _ IH]; intros i.
  - cbn [concat]; destruct (i * n + j); destruct i, j; reflexivity.
  - destruct i as [|i]; cbn [concat nth].
    + rewrite app_nth1 by lia; reflexivity.
    + rewrite app_nth2 by lia.
      replace (S i * n + j - length c) with (i * n + j) by lia.
      apply IH.
Qed.

Lemma nth_zipWith {A B C} (f : A -> B -> C) (l : list A) (m : list B)
    (j : nat) (da : A) (db : B) (dc : C) :
  j < length l -> j < length m ->
  nth j (zipWith f l m) dc = f (nth j l da) (nth j m db).
Proof.
  revert l m; induction j as [|j IH]; intros [|x l] [|y m] Hl Hm;
    simpl in *; try lia; [reflexivity|].
  apply IH; lia.
Qed.

Lemma nth_vsum (d j : nat) (img : list (list fl)) :
  Forall (fun row => length row = d) img -> j < d ->
  nth j (vsum d img) (Fin 0) = fsum (map (fun row => nth j row (Fin 0)) img).
Proof.
  intros Hall Hj; induction Hall as [|row img Hrow Hall IH].
  - unfold vsum; cbn [fold_right map fsum]; now apply nth_repeat_lt.
  - change (vsum d (row :: img)) with (zipWith fadd row (vsum d img)).
    rewrite nth_zipWith with (da := Fin 0) (db := Fin 0)
      by (rewrite ?length_vsum; auto; lia).
    now rewrite IH.
Qed.

Lemma existsb_map {A B} (f : B -> bool) (g : A -> B) (l : list A) :
  existsb f (map g l) = existsb (fun x => f (g x)) l.
Proof. induction l as [|x l IH]; simpl; [reflexivity | now rewrite IH]. Qed.

Lemma existsb_nth_seq {A} (f : A -> bool) (dflt : A) (n : nat) (l : list A) :
  length l = n ->
  existsb f l = existsb (fun j => f (nth j l dflt)) (seq 0 n).
Proof.
  revert l; induction n as [|n IH]; intros [|x l] H; try discriminate;
    [reflexivity|].
  cbn [seq existsb nth]; rewrite <- seq_shift, existsb_map; f_equal.
  apply IH; simpl in H; lia.
Qed.

Lemma Qltb_plus_zero (q : Q) : Qltb 0 (0 + q) = Qltb 0 q.
Proof.
  destruct (Qltb 0 q) eqn:E.
  - apply Qltb_lt in E; apply Qltb_lt; lra.
  - apply Qltb_ge in E; apply Qltb_ge; lra.
Qed.

Lemma positive_fsum_bits (row : list fl) :
  Forall bit row ->
  positive (fsum row) = b2f (existsb (fun v => fgreater v 0) row)
  /\ exists q : Q, fsum row = Fin q /\ (0 <= q)%Q.
Proof.
  induction 1 as [|a row Ha _ [IH (q & Hq & Hpos)]].
  - split; [reflexivity | exists 0%Q; split; [reflexivity | lra]].
  - cbn [fsum fold_right existsb]; fold (fsum row).
    rewrite Hq in *; destruct Ha as [-> | ->]; cbn [fadd fgreater].
    + split; [|eexists; split; [reflexivity | lra]].
      change (Qltb 0 0) with false; cbn [orb]; rewrite <- IH.
      unfold positive; cbn [fgreater]; now rewrite Qltb_plus_zero.
    + split; [|eexists; split; [reflexivity | lra]].
      change (Qltb 0 1) with true; cbn [orb b2f].
      unfold positive; cbn [fgreater].
      replace (Qltb 0 (1 + q)) with true; [reflexivity|].
      symmetry; apply Qltb_lt; lra.
Qed.

Lemma fmul_b2f (x y : bool) : fmul (b2f x) (b2f y) = b2f (x && y).
Proof. destruct x, y; reflexivity. Qed.

Lemma grid_nth_row {A} (d i : nat) (img : list (list A)) :
  grid d img -> i < d -> length (nth i img []) = d.
Proof.
  intros [Hl Hall] Hi; rewrite Forall_forall in Hall.
  apply Hall, nth_In; lia.
Qed.

Lemma mask_img_cell (d i j : nat) (img : list (list fl)) :
  grid d img -> Forall (Forall bit) img -> i < d -> j < d ->
  nth (i * d + j) (mask_img d img) (Fin 0)
  = b2f (existsb (fun j' => fgreater (nth j' (nth i img []) (Fin 0)) 0)
           (seq 0 d)
         && existsb (fun i' => fgreater (nth j (nth i' img []) (Fin 0)) 0)
              (seq 0 d)).
Proof.
  intros Hg Hbits Hi Hj; destruct Hg as [Hl Hall]; unfold mask_img.
  assert (Hh : length (vsum d img) = d) by now apply length_vsum.
  set (F := fun row : list fl =>
              map (fmul (positive (fsum row))) (map positive (vsum d img))).
  rewrite nth_concat_all;
    [ | apply Forall_map, Forall_forall; intros; unfold F;
        now rewrite !length_map
      | assumption ].
  rewrite nth_indep with (d' := F []) by (rewrite length_map; lia).
  rewrite (map_nth F); unfold F; rewrite map_map.
  set (G := fun x : fl => fmul (positive (fsum (nth i img []))) (positive x)).
  rewrite nth_indep with (d' := G (Fin 0)) by (rewrite length_map; lia).
  rewrite (map_nth G); unfold G.
  rewrite nth_vsum by assumption.
  assert (Hrow : Forall bit (nth i img [])).
  { rewrite Forall_forall in Hbits; apply Hbits, nth_In; lia. }
  assert (Hcol : Forall bit (map (fun row => nth j row (Fin 0)) img)).
  { apply Forall_map; rewrite Forall_forall in *; intros row Hin.
    specialize (Hbits row Hin); rewrite Forall_forall in Hbits.
    apply Hbits, nth_In; rewrite (Hall row Hin); lia. }
  destruct (positive_fsum_bits _ Hrow) as [-> _].
  destruct (positive_fsum_bits _ Hcol) as [-> _].
  rewrite fmul_b2f; f_equal; f_equal.
  - apply (existsb_nth_seq (fun v => fgreater v 0) (Fin 0) d).
    apply grid_nth_row; [now split | assumption].
  - rewrite (existsb_nth_seq _ (Fin 0) d) by (now rewrite length_map).
    assert (E : forall i', nth i' (map (fun row => nth j row (Fin 0)) img) (Fin 0)
                           = nth j (nth i' img []) (Fin 0)).
    { intros i'.
      transitivity (nth i' (map (fun row => nth j row (Fin 0)) img)
                      ((fun row => nth j row (Fin 0)) [])).
      - f_equal; destruct j; reflexivity.
      - apply (map_nth (fun row : list fl => nth j row (Fin 0))). }
    clear - E; induction (seq 0 d) as [|i' s IH]; simpl; [reflexivity|].
    now rewrite IH, E.
Qed.

(** ** The bounding box *)


Lemma list_min_In (l : list nat) : l <> [] -> In (list_min l) l.
Proof.
  destruct l as [|y l]; [congruence | intros _].
  unfold list_min; cbn [hd].
  assert (H : forall a m, fold_right Nat.min a m = a
                          \/ In (fold_right Nat.min a m) m).
  { intros a m; induction m as [|z m IH]; cbn [fold_right]; [now left|].
    destruct (Nat.min_spec z (fold_right Nat.min a m)) as [[_ ->] | [_ ->]].
    - right; now left.
    - destruct IH as [-> | IH]; [now left | right; now right]. }
  destruct (H y (y :: l)) as [-> | Hin]; [now left | assumption].
Qed.


Lemma list_max_In (l : list nat) : l <> [] -> In (list_max l) l.
Proof.
  induction l as [|y l IH]; [congruence | intros _].
  cbn [list_max fold_right]; fold (list_max l).
  destruct l as [|z l]; [left; cbn; lia|].
  destruct (Nat.max_spec y (list_max (z :: l))) as [[_ ->] | [_ ->]].
  - right; apply IH; congruence.
  - now left.
Qed.

Lemma existsb_ext_in {A} (f g : A -> bool) (l : list A) :
  (forall x, In x l -> f x = g x) -> existsb f l = existsb g l.
Proof.
  induction l as [|x l IH]; intros H; simpl; [reflexivity|].
  rewrite H by now left. rewrite IH; [reflexivity|].
  intros; apply H; now right.
Qed.

Lemma predicted_row_active (t : Q) (d : nat) (y_pred : tensor fl) (r i j : nat) :
  j < d -> predicted t d y_pred r i j = true ->
  row_active t d y_pred r i = true.
Proof.
  intros Hj H; unfold row_active; apply existsb_exists.
  exists j; split; [apply in_seq; lia | assumption].
Qed.

Lemma predicted_col_active (t : Q) (d : nat) (y_pred : tensor fl) (r i j : nat) :
  i < d -> predicted t d y_pred r i j = true ->
  col_active t d y_pred r j = true.
Proof.
  intros Hi H; unfold col_active; apply existsb_exists.
  exists i; split; [apply in_seq; lia | assumption].
Qed.


(** The rectangle of [bounding_box] is contained in every rectangle that
    covers all the predicted-positive cells: it is the smallest one. *)
Lemma bounding_box_least (t : Q) (d : nat) (y_pred : tensor fl)
    (r r0 r1 c0 c1 : nat) :
  (forall i j, i < d -> j < d -> predicted t d y_pred r i j = true ->
               r0 <= i <= r1 /\ c0 <= j <= c1) ->
  forall i j, bounding_box t d y_pred r i j = true ->
              r0 <= i <= r1 /\ c0 <= j <= c1.
Proof.
  intros Hcover i j; unfold bounding_box; cbv zeta.
  set (rs := filter (row_active t d y_pred r) (seq 0 d)).
  set (cs := filter (col_active t d y_pred r) (seq 0 d)).
  assert (Hrow : forall x, In x rs -> r0 <= x <= r1).
  { intros x Hx; apply filter_In in Hx; destruct Hx as [Hx Hact].
    apply in_seq in Hx; apply existsb_exists in Hact.
    destruct Hact as (j' & Hj' & Hp); apply in_seq in Hj'.
    apply (Hcover x j'); [lia | lia | assumption]. }
  assert (Hcol : forall x, In x cs -> c0 <= x <= c1).
  { intros x Hx; apply filter_In in Hx; destruct Hx as [Hx Hact].
    apply in_seq in Hx; apply existsb_exists in Hact.
    destruct Hact as (i' & Hi' & Hp); apply in_seq in Hi'.
    apply (Hcover i' x); [lia | lia | assumption]. }
  clearbody rs cs.
  destruct rs as [|x rs']; [discriminate|].
  destruct cs as [|y cs']; [intros; discriminate|].
  rewrite !andb_true_iff, !Nat.leb_le; intros [[[H1 H2] H3] H4].
  assert (Ha := Hrow _ (list_min_In (x :: rs') ltac:(congruence))).
  assert (Hb := Hrow _ (list_max_In (x :: rs') ltac:(congruence))).
  assert (Hc := Hcol _ (list_min_In (y :: cs') ltac:(congruence))).
  assert (Hd := Hcol _ (list_max_In (y :: cs') ltac:(congruence))).
  lia.
Qed.





Lemma length_mask_img (d : nat) (img : list (list fl)) :
  grid d img -> length (mask_img d img) = d * d.
Proof.
  intros [Hl Hall]; unfold mask_img; rewrite (length_concat_all d).
  - now rewrite length_map, Hl.
  - apply Forall_map, Forall_forall; intros.
    rewrite !length_map; now apply length_vsum.
Qed.

Lemma fgreater_b2f (c : bool) : fgreater (b2f c) 0 = c.
Proof. now destruct c. Qed.

Lemma nth_binarize (t : Q) (l : list fl) (k : nat) :
  nth k (binarize t l) (Fin 0) = b2f (fgreater (nth k l NaN) t).
Proof.
  unfold binarize.
  change (Fin 0) with ((fun v => b2f (fgreater v t)) NaN) at 1.
  apply (map_nth (fun v => b2f (fgreater v t))).
Qed.

Lemma images_bits (b d : nat) (l : list fl) :
  Forall bit l -> Forall (Forall (Forall bit)) (images b d l).
Proof.
  intros H; unfold images; apply Forall_map.
  assert (Hc := Forall_chunk bit b (d * d) l H).
  eapply Forall_impl; [|exact Hc].
  intros blk; apply Forall_chunk.
Qed.

Lemma mask_cell (t : Q) (b d r i j : nat) (l : list fl) :
  length l = b * (d * d) -> r < b -> i < d -> j < d ->
  cell d (concat (map (mask_img d) (images b d (binarize t l)))) r i j (Fin 0)
  = b2f (row_active t d (mkTensor [b; d * d] l) r i
         && col_active t d (mkTensor [b; d * d] l) r j).
Proof.
  intros Hlen Hr Hi Hj; unfold cell.
  assert (HL : length (binarize t l) = b * (d * d))
    by (unfold binarize; now rewrite length_map).
  set (imgs := images b d (binarize t l)).
  assert (Hg : Forall (grid d) imgs) by now apply images_grid.
  assert (Hb : length imgs = b) by apply length_images.
  assert (Hbits : Forall (Forall (Forall bit)) imgs)
    by apply images_bits, Forall_bit_binarize.
  assert (Hin : In (nth r imgs []) imgs) by (apply nth_In; lia).
  rewrite Forall_forall in Hg, Hbits.
  replace ((r * d + i) * d + j) with (r * (d * d) + (i * d + j)) by lia.
  rewrite nth_concat_all;
    [ | apply Forall_map, Forall_forall; intros img Himg;
        now apply length_mask_img, Hg
      | nia ].
  rewrite nth_indep with (d' := mask_img d [])
    by (rewrite length_map; lia).
  rewrite map_nth, mask_img_cell by auto.
  unfold row_active, col_active, predicted, cell; cbn [data].
  f_equal; f_equal; apply existsb_ext_in; intros k Hk; apply in_seq in Hk;
    unfold imgs; rewrite nth_images by lia;
    now rewrite nth_binarize, fgreater_b2f.
Qed.

Lemma length_masks (t : Q) (b d : nat) (l : list fl) :
  length l = b * (d * d) ->
  length (concat (map (mask_img d) (images b d (binarize t l)))) = b * (d * d).
Proof.
  intros Hlen.
  assert (HL : length (binarize t l) = b * (d * d))
    by (unfold binarize; now rewrite length_map).
  rewrite (length_concat_all (d * d)).
  - now rewrite length_map, length_images.
  - apply Forall_map; eapply Forall_impl; [|apply images_grid, HL].
    intros img; apply length_mask_img.
Qed.


Lemma index_cell (b d n : nat) :
  n < b * (d * d) ->
  exists r i j, r < b /\ i < d /\ j < d /\ n = (r * d + i) * d + j.
Proof.
  intros Hn.
  assert (Hd : d <> 0) by nia.
  exists (n / (d * d)), (n mod (d * d) / d), (n mod (d * d) mod d).
  assert (H1 := Nat.div_mod_eq n (d * d)).
  assert (H2 := Nat.div_mod_eq (n mod (d * d)) d).
  assert (H3 : n mod (d * d) < d * d) by (apply Nat.mod_upper_bound; nia).
  assert (H4 : n mod (d * d) mod d < d) by now apply Nat.mod_upper_bound.
  repeat split.
  - apply Nat.Div0.div_lt_upper_bound; lia.
  - apply Nat.Div0.div_lt_upper_bound; lia.
  - assumption.
  - nia.
Qed.

(** ** The mask of [iou_bbox] *)


Lemma block_pred_rectangular :
  forall r, r < 1 -> rectangular (1 # 2) 3 block_pred r.
Proof.
  intros r Hr; exists 0, 2, 0, 2; intros i j Hi Hj.
  assert (r = 0) by lia; subst r.
  destruct i as [|[|[|i]]]; try lia;
    (destruct j as [|[|[|j]]]; try lia;
     (split; [intros H; first [discriminate H | lia]
             | intros H; first [reflexivity | lia]])).
Qed.




Lemma rectangle_product (t : Q) (d : nat) (y_pred : tensor fl) (r i j : nat) :
  rectangular t d y_pred r -> i < d -> j < d ->
  row_active t d y_pred r i && col_active t d y_pred r j
  = predicted t d y_pred r i j.
Proof.
  intros (r0 & r1 & c0 & c1 & Hrect) Hi Hj.
  apply eq_true_iff_eq; rewrite andb_true_iff; split.
  - intros [Hr Hc]; apply existsb_exists in Hr, Hc.
    destruct Hr as (j' & Hj' & Hr), Hc as (i' & Hi' & Hc).
    apply in_seq in Hj', Hi'.
    apply Hrect in Hr, Hc; try lia.
    apply Hrect; lia.
  - intros Hp; split.
    + now apply predicted_row_active with (j := j).
    + now apply predicted_col_active with (i := i).
Qed.

Lemma iou_bbox_mask_rectangles (t : Q) (b d : nat) (l : list fl) :
  0 < d -> length l = b * (d * d) ->
  (forall r, r < b -> rectangular t d (mkTensor [b; d * d] l) r) ->
  iou_bbox_mask (mkTensor [b; d * d] l) t d
  = Ok (K_cast (K_greater (mkTensor [b; d * d] l) t)).
Proof.
  intros Hd Hlen Hrect; rewrite iou_bbox_mask_images by assumption.
  unfold K_cast, K_greater; cbn [shape data]; rewrite map_map.
  change (map (fun x => b2f (fgreater x t)) l) with (binarize t l).
  do 2 f_equal.
  apply nth_ext with (d := Fin 0) (d' := Fin 0).
  - rewrite length_masks by assumption.
    unfold binarize; now rewrite length_map.
  - rewrite length_masks by assumption; intros n Hn.
    destruct (index_cell b d n Hn) as (r & i & j & Hr & Hi & Hj & ->).
    change (nth ((r * d + i) * d + j) ?m (Fin 0))
      with (cell d m r i j (Fin 0)) at 1.
    rewrite mask_cell, rectangle_product by auto.
    now rewrite nth_binarize.
Qed.

(** C6: when the binarized prediction of every instance is a solid
    axis-aligned rectangle (possibly empty) of the input_dim x input_dim
    image, [iou_bbox] returns what [iou] returns on the same inputs. *)
Theorem iou_bbox_on_rectangles (eps t : Q) (gt pred : tensor fl) (b d : nat) :
  0 < d -> wf pred -> shape pred = [b; d * d] ->
  (forall r, r < b -> rectangular t d pred r) ->
  iou_bbox eps gt pred t d = iou eps gt pred t.
Proof.
  destruct pred as [sp p]; unfold wf; cbn [shape data].
  intros Hd Hp -> Hrect; rewrite numel2 in Hp.
  unfold iou_bbox; rewrite iou_bbox_mask_rectangles by assumption.
  reflexivity.
Qed.

Lemma iou_bbox_on_rectangles_witness :
  iou_bbox eps7 block_gt block_pred (1 # 2) 3
  = iou eps7 block_gt block_pred (1 # 2).
Proof.
  apply (iou_bbox_on_rectangles eps7 (1 # 2) block_gt block_pred 1 3);
    first [lia | reflexivity | apply block_pred_rectangular].
Defined.

(** ** Ranges: [0,1] for every metric on a non-empty batch *)

Lemma unit_ratio_value (l : list fl) :
  Forall unit_ratio l -> Forall unit_value l.
Proof.
  intros H; eapply Forall_impl; [|exact H].
  intros v (num & den & -> & _ & _ & Hq); now eexists.
Qed.

Lemma mean_in_unit (l : list fl) :
  Forall (fun v => exists q : Q, v = Fin q /\ (0 <= q <= 1)%Q) l ->
  0 < length l -> in_unit (Ok (batch_mean l)).
Proof.
  intros H Hne.
  destruct (batch_mean_unit l H) as (q & -> & Hq);
    [destruct l; [simpl in Hne; lia | congruence]|].
  now exists q.
Qed.

Lemma length_zip_chunks {A B C} (f : list A -> list B -> C) (b n : nat)
    (g : list A) (p : list B) :
  length (zipWith f (chunk b n g) (chunk b n p)) = b.
Proof. rewrite length_zipWith, !length_chunk; apply Nat.min_id. Qed.

Lemma ratios_of_rows (f : list fl -> list fl -> fl) (b n : nat) (g m : list fl) :
  (forall x y, Forall bit x -> Forall bit y -> unit_ratio (f x y)) ->
  Forall bit g -> Forall bit m ->
  Forall unit_ratio (zipWith f (chunk b n g) (chunk b n m)).
Proof.
  intros Hf Hg Hm.
  apply Forall_zipWith with (P := Forall bit) (R := Forall bit);
    auto using Forall_chunk.
Qed.

Lemma mask_img_bits (d : nat) (img : list (list fl)) :
  Forall bit (mask_img d img).
Proof.
  unfold mask_img; apply Forall_concat, Forall_map, Forall_forall.
  intros row _; rewrite map_map; apply Forall_map, Forall_forall.
  intros v _; unfold positive; rewrite fmul_b2f; apply bit_b2f.
Qed.

Lemma masks_bits (d : nat) (imgs : list (list (list fl))) :
  Forall bit (concat (map (mask_img d) imgs)).
Proof.
  apply Forall_concat, Forall_map, Forall_forall.
  intros img _; apply mask_img_bits.
Qed.

(** C10 (as stated, refuted): on a batch without instance, which is a pair
    of equal-shaped tensors with values in {0,1}, the mean is taken over no
    value and [iou] returns NaN; [iou_bbox] returns no scalar when
    input_dim * input_dim is not N; and the per-instance value of
    [iou_acc] is 1, outside [0,1), on an instance whose IoU exceeds 1/2. *)
Lemma metrics_outside_unit_interval :
  wf empty_batch /\ binary bit empty_batch
  /\ iou eps7 empty_batch empty_batch (1 # 2) = Ok NaN
  /\ ~ in_unit (iou eps7 empty_batch empty_batch (1 # 2))
  /\ binary bit y_example
  /\ ~ in_unit (iou_bbox eps7 y_example x_example 0.6 3)
  /\ binary bit pair_gt
  /\ map (fun v => b2f (fgreater v (1 # 2)))
       (zipWith (iou_instance eps7)
          (rows pair_gt) (rows (K_cast (K_greater pair_pred (1 # 2)))))
     = [Fin 1]
  /\ is_one (iou_acc eps7 pair_gt pair_pred (1 # 2)).
Proof.
  split; [reflexivity | split; [constructor | split; [reflexivity|]]].
  split; [intros (q & H & _); discriminate H|].
  split; [bits|].
  split; [intros (q & H & _); vm_compute in H; discriminate H|].
  split; [bits | split; [reflexivity|]].
  eexists; split; [vm_compute; reflexivity | reflexivity].
Qed.

(** C10 (amended): for a ground truth with values in {0,1} and a
    prediction of the same shape (batch, N) with at least one instance,
    and a positive epsilon, each of [iou], [precision], [recall] and
    [iou_acc] returns a scalar of [0,1], and so does [iou_bbox] when
    input_dim is positive and input_dim * input_dim = N: every
    per-instance ratio has a numerator that is at most its denominator,
    which is strictly positive, so each per-instance value lies in [0,1],
    and so does the batch mean. *)
Theorem metrics_in_unit_interval (eps t : Q) (gt pred : tensor fl) (b n : nat) :
  (0 < eps)%Q -> 0 < b -> wf gt -> wf pred ->
  shape gt = [b; n] -> shape pred = [b; n] -> binary bit gt ->
  in_unit (iou eps gt pred t)
  /\ in_unit (precision eps gt pred t)
  /\ in_unit (recall eps gt pred t)
  /\ in_unit (iou_acc eps gt pred t)
  /\ (forall d, 0 < d -> d * d = n -> in_unit (iou_bbox eps gt pred t d))
  /\ Forall unit_ratio
       (zipWith (iou_instance eps)
          (rows gt) (rows (K_cast (K_greater pred t))))
  /\ Forall unit_ratio
       (zipWith (precision_instance eps)
          (rows gt) (rows (K_cast (K_greater pred t))))
  /\ Forall unit_ratio
       (zipWith (recall_instance eps)
          (rows gt) (rows (K_cast (K_greater pred t))))
  /\ Forall unit_value
       (map (fun v => b2f (fgreater v (1 # 2)))
          (zipWith (iou_instance eps)
             (rows gt) (rows (K_cast (K_greater pred t)))))
  /\ (forall d, 0 < d -> d * d = n ->
      exists mask : tensor fl,
        iou_bbox_mask pred t d = Ok mask
        /\ Forall unit_ratio
             (zipWith (iou_instance eps) (rows gt) (rows mask))).
Proof.
  destruct gt as [sg g], pred as [sp p]; unfold wf, binary, rows.
  cbn [shape data K_cast K_greater].
  intros Heps Hb Hg Hp -> -> Hbit; cbn [nth]; rewrite numel2 in *.
  rewrite map_map.
  change (map (fun x => b2f (fgreater x t)) p) with (binarize t p).
  assert (Hbin := Forall_bit_binarize t p).
  assert (Hi : Forall unit_ratio
                 (zipWith (iou_instance eps)
                    (chunk b n g) (chunk b n (binarize t p))))
    by (apply ratios_of_rows; auto using iou_instance_ratio).
  assert (Hpr : Forall unit_ratio
                  (zipWith (precision_instance eps)
                     (chunk b n g) (chunk b n (binarize t p))))
    by (apply ratios_of_rows; auto using precision_instance_ratio).
  assert (Hre : Forall unit_ratio
                  (zipWith (recall_instance eps)
                     (chunk b n g) (chunk b n (binarize t p))))
    by (apply ratios_of_rows; auto using recall_instance_ratio).
  assert (Hacc : Forall unit_value
                   (map (fun v => b2f (fgreater v (1 # 2)))
                      (zipWith (iou_instance eps)
                         (chunk b n g) (chunk b n (binarize t p)))))
    by (apply Forall_map, Forall_forall; intros v _;
        apply bit_cases, bit_b2f).
  assert (Hbox : forall d, 0 < d -> d * d = n ->
            Forall unit_ratio
              (zipWith (iou_instance eps) (chunk b (d * d) g)
                 (chunk b (d * d)
                    (concat (map (mask_img d)
                               (images b d (binarize t p))))))).
  { intros d Hd <-.
    apply ratios_of_rows; auto using iou_instance_ratio, masks_bits. }
  split; [|split; [|split; [|split; [|split]]]].
  - rewrite iou_rows by assumption.
    apply mean_in_unit; [now apply unit_ratio_value|].
    now rewrite length_zip_chunks.
  - rewrite precision_rows by assumption.
    apply mean_in_unit; [now apply unit_ratio_value|].
    now rewrite length_zip_chunks.
  - rewrite recall_rows by assumption.
    apply mean_in_unit; [now apply unit_ratio_value|].
    now rewrite length_zip_chunks.
  - rewrite iou_acc_rows by assumption.
    apply mean_in_unit; [exact Hacc|].
    now rewrite length_map, length_zip_chunks.
  - intros d Hd Hn; unfold iou_bbox.
    assert (Hbx := Hbox d Hd Hn); subst n.
    rewrite iou_bbox_mask_images by assumption; cbn [bind].
    rewrite iou_of_mask_rows by (auto using length_masks).
    apply mean_in_unit; [now apply unit_ratio_value|].
    now rewrite length_zip_chunks.
  - split; [exact Hi | split; [exact Hpr | split; [exact Hre|]]].
    split; [exact Hacc|].
    intros d Hd Hn; assert (Hbx := Hbox d Hd Hn); subst n.
    eexists; split; [now apply iou_bbox_mask_images|].
    cbn [shape data nth]; exact Hbx.
Qed.

Lemma metrics_in_unit_interval_witness :
  in_unit (iou eps7 block_gt block_pred (1 # 2))
  /\ in_unit (precision eps7 block_gt block_pred (1 # 2))
  /\ in_unit (recall eps7 block_gt block_pred (1 # 2))
  /\ in_unit (iou_acc eps7 block_gt block_pred (1 # 2))
  /\ in_unit (iou_bbox eps7 block_gt block_pred (1 # 2) 3)
  /\ Forall unit_ratio
       (zipWith (iou_instance eps7)
          (rows block_gt) (rows (K_cast (K_greater block_pred (1 # 2))))).
Proof.
  pose proof (metrics_in_unit_interval eps7 (1 # 2) block_gt block_pred 1 9)
    as H.
  destruct H as (H1 & H2 & H3 & H4 & H5 & H6 & _);
    [reflexivity | lia | reflexivity | reflexivity | reflexivity
    | reflexivity | bits | ].
  split; [exact H1 | split; [exact H2 | split; [exact H3|]]].
  split; [exact H4 | split; [|exact H6]].
  apply (H5 3); [lia | reflexivity].
Defined.

(** ** All-zero batches *)

Lemma zero_products (x y : list fl) :
  Forall (eq (Fin 0)) x -> Forall bit y ->
  exists q : Q, fsum (zipWith fmul x y) = Fin q /\ (q == 0)%Q.
Proof.
  intros Hx; revert y; induction Hx as [|a x <- _ IH]; intros y Hy.
  - exists 0%Q; split; reflexivity.
  - destruct Hy as [|c y Hc Hy]; [exists 0%Q; split; reflexivity|].
    destruct (IH y Hy) as (q & Hq & Hz).
    cbn [zipWith fsum fold_right]; fold (fsum (zipWith fmul x y)); rewrite Hq.
    destruct Hc as [-> | ->]; cbn [fmul fadd];
      eexists; (split; [reflexivity | lra]).
Qed.

Lemma zero_ratio (q den : Q) :
  (q == 0)%Q -> (0 < den)%Q -> zero_value (fdiv (Fin q) (Fin den)).
Proof.
  intros Hq Hden; cbn [fdiv]; rewrite Qzerob_false by lra.
  eexists; split; [reflexivity|].
  unfold Qdiv; rewrite Hq; apply Qmult_0_l.
Qed.

Lemma Forall_zero_bit (x : list fl) : Forall (eq (Fin 0)) x -> Forall bit x.
Proof. intros H; eapply Forall_impl; [|exact H]; intros v <-; now left. Qed.

Lemma zero_over_value (eps : Q) (v : fl) : zero_over eps v -> zero_value v.
Proof.
  intros (num & den & -> & Hn & _); eexists; split; [reflexivity|].
  unfold Qdiv; rewrite Hn; apply Qmult_0_l.
Qed.

Lemma zero_indicators (h : fl -> fl -> fl) (x y : list fl) :
  positive (h (Fin 0) (Fin 0)) = Fin 0 ->
  Forall (eq (Fin 0)) x -> Forall (eq (Fin 0)) y ->
  exists q : Q, fsum (map positive (zipWith h x y)) = Fin q /\ (q == 0)%Q.
Proof.
  intros Hh Hx; revert y; induction Hx as [|a x <- _ IH]; intros y Hy.
  - exists 0%Q; split; reflexivity.
  - destruct Hy as [|c y <- Hy]; [exists 0%Q; split; reflexivity|].
    destruct (IH y Hy) as (q & Hq & Hz).
    cbn [zipWith map fsum fold_right].
    fold (fsum (map positive (zipWith h x y))); rewrite Hq, Hh; cbn [fadd].
    eexists; split; [reflexivity | lra].
Qed.

Lemma zero_over_ratio (eps q den : Q) :
  (0 < eps)%Q -> (q == 0)%Q -> (den == eps)%Q ->
  zero_over eps (fdiv (Fin q) (Fin den)).
Proof.
  intros Heps Hq Hden; cbn [fdiv]; rewrite Qzerob_false by lra.
  now exists q, den.
Qed.

Lemma iou_instance_zero (eps : Q) (x y : list fl) :
  (0 < eps)%Q -> Forall (eq (Fin 0)) x -> Forall (eq (Fin 0)) y ->
  zero_over eps (iou_instance eps x y).
Proof.
  intros Heps Hx Hy; unfold iou_instance.
  destruct (zero_products x y Hx (Forall_zero_bit y Hy)) as (q & -> & Hq).
  destruct (zero_indicators fadd x y eq_refl Hx Hy) as (qu & -> & Hqu).
  cbn [fadd]; apply zero_over_ratio; [assumption | assumption | lra].
Qed.

Lemma precision_instance_zero (eps : Q) (x y : list fl) :
  (0 < eps)%Q -> Forall (eq (Fin 0)) x -> Forall (eq (Fin 0)) y ->
  zero_over eps (precision_instance eps x y).
Proof.
  intros Heps Hx Hy; unfold precision_instance; cbv zeta.
  destruct (zero_products x y Hx (Forall_zero_bit y Hy)) as (q & -> & Hq).
  destruct (zero_indicators fsub y x eq_refl Hy Hx) as (qf & -> & Hqf).
  cbn [fadd]; apply zero_over_ratio; [assumption | assumption | lra].
Qed.

Lemma recall_instance_zero (eps : Q) (x y : list fl) :
  (0 < eps)%Q -> Forall (eq (Fin 0)) x -> Forall (eq (Fin 0)) y ->
  zero_over eps (recall_instance eps x y).
Proof.
  intros Heps Hx Hy; unfold recall_instance; cbv zeta.
  destruct (zero_products x y Hx (Forall_zero_bit y Hy)) as (q & -> & Hq).
  destruct (zero_indicators fsub x y eq_refl Hx Hy) as (qf & -> & Hqf).
  cbn [fadd]; apply zero_over_ratio; [assumption | assumption | lra].
Qed.

Lemma binarize_zero (t : Q) (p : list fl) :
  Forall (fun v => fgreater v t = false) p ->
  Forall (eq (Fin 0)) (binarize t p).
Proof.
  intros H; unfold binarize; apply Forall_map.
  eapply Forall_impl; [|exact H]; cbv beta; now intros v ->.
Qed.

Lemma fsum_zero (l : list fl) :
  Forall zero_value l -> zero_value (fsum l).
Proof.
  induction 1 as [|v l (q & -> & Hq) _ (s & Hs & Hz)].
  - exists 0%Q; split; reflexivity.
  - cbn [fsum fold_right]; fold (fsum l); rewrite Hs; cbn [fadd].
    eexists; split; [reflexivity | lra].
Qed.

Lemma mean_zero (l : list fl) :
  Forall zero_value l -> 0 < length l -> is_zero (Ok (batch_mean l)).
Proof.
  intros H Hne; destruct (fsum_zero l H) as (s & Hs & Hz).
  unfold batch_mean; rewrite Hs.
  destruct (zero_ratio s (inject_Z (Z.of_nat (length l))) Hz)
    as (q & Hq & Hq0).
  - change 0%Q with (inject_Z 0); rewrite <- Zlt_Qlt; lia.
  - exists q; split; [now rewrite Hq | assumption].
Qed.

Lemma zeros_of_rows (eps : Q) (f : list fl -> list fl -> fl) (b n : nat)
    (g m : list fl) :
  (forall x y, Forall (eq (Fin 0)) x -> Forall (eq (Fin 0)) y ->
               zero_over eps (f x y)) ->
  Forall (eq (Fin 0)) g -> Forall (eq (Fin 0)) m ->
  Forall (zero_over eps) (zipWith f (chunk b n g) (chunk b n m)).
Proof.
  intros Hf Hg Hm.
  apply Forall_zipWith
    with (P := Forall (eq (Fin 0))) (R := Forall (eq (Fin 0)));
    auto using Forall_chunk.
Qed.

Lemma zero_over_values (eps : Q) (l : list fl) :
  Forall (zero_over eps) l -> Forall zero_value l.
Proof. intros H; eapply Forall_impl; [|exact H]; apply zero_over_value. Qed.

(** C8 (as stated, refuted): on the batch without instance the ground truth
    is all zeros and no prediction exceeds the threshold, and each of
    [iou], [precision] and [recall] returns NaN. *)
Lemma zero_batch_nan :
  wf empty_batch
  /\ Forall (eq (Fin 0)) (data empty_batch)
  /\ Forall (fun v => fgreater v (1 # 2) = false) (data empty_batch)
  /\ iou eps7 empty_batch empty_batch (1 # 2) = Ok NaN
  /\ precision eps7 empty_batch empty_batch (1 # 2) = Ok NaN
  /\ recall eps7 empty_batch empty_batch (1 # 2) = Ok NaN.
Proof.
  split; [reflexivity|].
  split; [constructor|].
  split; [constructor|].
  split; [reflexivity | split; reflexivity].
Qed.

(** C8 (amended): on a batch with at least one instance where the ground
    truth is all zeros and every prediction is at or below the threshold,
    with a positive epsilon, each of [iou], [precision] and [recall]
    returns a finite scalar equal to 0, neither NaN nor an error: every
    per-instance ratio is a quotient of 0 by epsilon. *)
Theorem zero_batch_metrics (eps t : Q) (gt pred : tensor fl) (b n : nat) :
  (0 < eps)%Q -> 0 < b -> wf gt -> wf pred ->
  shape gt = [b; n] -> shape pred = [b; n] ->
  Forall (eq (Fin 0)) (data gt) ->
  Forall (fun v => fgreater v t = false) (data pred) ->
  is_zero (iou eps gt pred t)
  /\ is_zero (precision eps gt pred t)
  /\ is_zero (recall eps gt pred t)
  /\ Forall (zero_over eps)
       (zipWith (iou_instance eps)
          (rows gt) (rows (K_cast (K_greater pred t))))
  /\ Forall (zero_over eps)
       (zipWith (precision_instance eps)
          (rows gt) (rows (K_cast (K_greater pred t))))
  /\ Forall (zero_over eps)
       (zipWith (recall_instance eps)
          (rows gt) (rows (K_cast (K_greater pred t)))).
Proof.
  destruct gt as [sg g], pred as [sp p]; unfold wf, rows.
  cbn [shape data K_cast K_greater].
  intros Heps Hb Hg Hp -> -> Hzero Hlow; cbn [nth]; rewrite numel2 in *.
  rewrite map_map.
  change (map (fun x => b2f (fgreater x t)) p) with (binarize t p).
  assert (Hbin := binarize_zero t p Hlow).
  assert (Hi : Forall (zero_over eps)
                 (zipWith (iou_instance eps)
                    (chunk b n g) (chunk b n (binarize t p))))
    by (apply zeros_of_rows; auto using iou_instance_zero).
  assert (Hpr : Forall (zero_over eps)
                  (zipWith (precision_instance eps)
                     (chunk b n g) (chunk b n (binarize t p))))
    by (apply zeros_of_rows; auto using precision_instance_zero).
  assert (Hre : Forall (zero_over eps)
                  (zipWith (recall_instance eps)
                     (chunk b n g) (chunk b n (binarize t p))))
    by (apply zeros_of_rows; auto using recall_instance_zero).
  rewrite iou_rows, precision_rows, recall_rows by assumption.
  repeat split; try assumption;
    (apply mean_zero;
     [now apply zero_over_values with (eps := eps)
     | now rewrite length_zip_chunks]).
Qed.

Lemma zero_batch_metrics_witness :
  is_zero (iou eps7 zeros_gt low_pred (1 # 2))
  /\ is_zero (precision eps7 zeros_gt low_pred (1 # 2))
  /\ is_zero (recall eps7 zeros_gt low_pred (1 # 2)).
Proof.
  pose proof (zero_batch_metrics eps7 (1 # 2) zeros_gt low_pred 2 2) as H.
  destruct H as (H1 & H2 & H3 & _);
    [ reflexivity | lia | reflexivity | reflexivity | reflexivity
    | reflexivity
    | cbn; repeat (constructor; [reflexivity|]); constructor
    | cbn; repeat (constructor; [reflexivity|]); constructor
    | ].
  repeat split; assumption.
Defined.

(** ** Shapes accepted by [iou_bbox] *)

Lemma iou_bbox_mask_numel (t : Q) (d : nat) (s s' : list nat) (l : list fl) :
  numel s = numel s' ->
  iou_bbox_mask (mkTensor s l) t d = iou_bbox_mask (mkTensor s' l) t d.
Proof.
  intros H; unfold iou_bbox_mask, K_cast, K_greater; cbn [shape data].
  rewrite !K_reshape_infer3; cbn [shape data]; now rewrite H.
Qed.

Lemma iou_bbox_mask_fails (t : Q) (d : nat) (y_pred : tensor fl) :
  d = 0 \/ numel (shape y_pred) mod (d * d) <> 0 ->
  iou_bbox_mask y_pred t d = InvalidArgument.
Proof.
  intros H; unfold iou_bbox_mask, K_cast, K_greater.
  rewrite K_reshape_infer3; cbn [shape data].
  destruct (Nat.eqb_spec (d * d) 0) as [E|E]; [reflexivity|].
  destruct (Nat.eqb_spec (numel (shape y_pred) mod (d * d)) 0) as [E'|E'];
    [|reflexivity].
  destruct H as [-> | H]; [now elim E | contradiction].
Qed.

Lemma bshape_scalar (x : nat) : bshape [1] [x] = Some [x].
Proof.
  cbn [bshape]; unfold bdim.
  destruct (Nat.eqb_spec 1 x) as [<-|]; reflexivity.
Qed.

Lemma K_binop_rank2 (f : fl -> fl -> fl) (x y : tensor fl) (b n m k : nat) :
  shape x = [b; n] -> shape y = [m; k] ->
  match bshape [b; n] [m; k] with
  | Some s => ok_shape (K_binop f x y) s /\ length s = 2
  | None => K_binop f x y = InvalidArgument
  end.
Proof.
  intros Hx Hy; unfold K_binop; rewrite Hx, Hy.
  cbn [length Nat.max pad_rank Nat.sub repeat app].
  destruct (bshape [b; n] [m; k]) as [s|] eqn:Hs; [|reflexivity].
  split; [now eexists|].
  cbn [bshape] in Hs.
  destruct (bdim b m); [|discriminate].
  destruct (bdim n k); [|discriminate].
  now injection Hs as <-.
Qed.

Lemma K_sum_rank2 (x : tensor fl) (s : list nat) :
  length (shape x) = 2 -> ok_shape (K_sum x 1 false) [hd 0 (shape x)].
Proof.
  intros H; unfold K_sum; rewrite H; cbn [Nat.ltb Nat.leb].
  eexists; split; [reflexivity|]; cbn [shape].
  destruct (shape x) as [|a [|c [|? ?]]]; try discriminate; reflexivity.
Qed.

Lemma K_binop_scalar_shape (f : fl -> fl -> fl) (c : Q) (x : tensor fl) (a : nat) :
  shape x = [a] -> ok_shape (K_binop f (scalar c) x) [a].
Proof.
  intros Hx; unfold K_binop; rewrite Hx.
  cbn [scalar shape length Nat.max pad_rank Nat.sub repeat app].
  rewrite bshape_scalar; now eexists.
Qed.

Lemma K_binop_same_shape (f : fl -> fl -> fl) (x y : tensor fl) :
  shape x = shape y -> ok_shape (K_binop f x y) (shape x).
Proof.
  intros H; unfold K_binop.
  rewrite <- H, Nat.max_id, pad_rank_same, bshape_same; now eexists.
Qed.

Lemma iou_of_mask_outcome (eps : Q) (y_true mask : tensor fl) (b n m k : nat) :
  shape y_true = [b; n] -> shape mask = [m; k] ->
  succeeds (iou_of_mask eps y_true mask) <-> bshape [b; n] [m; k] <> None.
Proof.
  intros Hg Hm; unfold iou_of_mask, K_mul, K_add, K_div.
  assert (H1 := K_binop_rank2 fmul y_true mask b n m k Hg Hm).
  assert (H2 := K_binop_rank2 fadd y_true mask b n m k Hg Hm).
  destruct (bshape [b; n] [m; k]) as [s|].
  - split; [congruence | intros _].
    destruct H1 as [(i & -> & Hi) Hs], H2 as [(u & -> & Hu) _]; cbn [bind].
    destruct (K_sum_rank2 i s) as (num & -> & Hnum); [congruence|].
    destruct (K_sum_rank2 (K_cast (K_greater u 0)) s) as (usum & -> & Husum);
      [cbn [K_cast K_greater shape]; congruence|].
    cbn [bind].
    destruct (K_binop_scalar_shape fadd eps usum _ Husum) as (den & -> & Hden).
    cbn [bind].
    destruct (K_binop_same_shape fdiv num den) as (v & -> & _).
    + rewrite Hnum, Hden; cbn [K_cast K_greater shape]; congruence.
    + cbn [bind]; now eexists.
  - rewrite H1; cbn [bind].
    split; [intros [a H]; discriminate | congruence].
Qed.

(** C9 (as stated, refuted): with inputs of shape (1, 2) and input_dim 1,
    so that input_dim * input_dim is not N, the reshape to (-1, 1, 1)
    succeeds, the mask of shape (2, 1) broadcasts against the ground truth
    and [iou_bbox] returns a value. *)
Lemma iou_bbox_accepts_mismatch :
  wf pair_gt /\ wf pair_pred
  /\ shape pair_gt = [1; 2] /\ shape pair_pred = [1; 2]
  /\ 1 * 1 <> 2
  /\ iou_bbox_mask pair_pred (1 # 2) 1
     = Ok (mkTensor [2; 1] (floats [1; 0]%Q))
  /\ iou_bbox eps7 pair_gt pair_pred (1 # 2) 1
     = Ok (Fin (100000010000000 # 400000060000002))
  /\ iou_bbox eps7 pair_gt pair_pred (1 # 2) 1 <> InvalidArgument.
Proof.
  repeat (split; [first [reflexivity | lia]|]).
  vm_compute; discriminate.
Qed.

(** C9 (amended): for inputs of shape (batch, N), [iou_bbox] succeeds
    exactly when input_dim is positive, input_dim * input_dim divides
    batch * N (the only requirement of the reshape, whose first dimension
    is inferred) and the shape (batch, N) of the ground truth broadcasts
    against the shape (batch * N / input_dim^2, input_dim^2) of the mask;
    otherwise it fails with InvalidArgument.  In particular it succeeds
    when input_dim is positive and input_dim * input_dim = N, and fails
    when input_dim * input_dim does not divide batch * N. *)
Theorem iou_bbox_outcome (eps t : Q) (gt pred : tensor fl) (b n d : nat) :
  wf pred -> shape gt = [b; n] -> shape pred = [b; n] ->
  (succeeds (iou_bbox eps gt pred t d)
   <-> 0 < d /\ (b * n) mod (d * d) = 0
       /\ bshape [b; n] [b * n / (d * d); d * d] <> None)
  /\ (~ succeeds (iou_bbox eps gt pred t d)
      -> iou_bbox eps gt pred t d = InvalidArgument)
  /\ (0 < d -> d * d = n -> succeeds (iou_bbox eps gt pred t d))
  /\ ((b * n) mod (d * d) <> 0 ->
      iou_bbox eps gt pred t d = InvalidArgument).
Proof.
  destruct gt as [sg g], pred as [sp p]; unfold wf; cbn [shape data].
  intros Hp -> ->; rewrite numel2 in Hp.
  assert (Hiff :
    succeeds (iou_bbox eps (mkTensor [b; n] g) (mkTensor [b; n] p) t d)
    <-> 0 < d /\ (b * n) mod (d * d) = 0
        /\ bshape [b; n] [b * n / (d * d); d * d] <> None).
  { unfold iou_bbox.
    destruct (Nat.eq_dec d 0) as [-> | Hd].
    { rewrite iou_bbox_mask_fails by now left.
      split; [intros [a H]; discriminate | lia]. }
    destruct (Nat.eq_dec ((b * n) mod (d * d)) 0) as [Hmod | Hmod].
    2:{ rewrite iou_bbox_mask_fails
          by (right; cbn [shape]; now rewrite numel2).
        split; [intros [a H]; discriminate | tauto]. }
    assert (Hdiv : b * n = b * n / (d * d) * (d * d)).
    { rewrite (Nat.mul_comm _ (d * d)); now apply Nat.Div0.div_exact. }
    set (m := b * n / (d * d)) in *.
    rewrite (iou_bbox_mask_numel t d [b; n] [m; d * d])
      by (rewrite !numel2; exact Hdiv).
    rewrite iou_bbox_mask_images by lia; cbn [bind].
    rewrite (iou_of_mask_outcome eps _ _ b n m (d * d)) by reflexivity.
    split; [intros H; repeat split; auto; lia | tauto]. }
  split; [exact Hiff | split; [|split]].
  - intros Hno.
    destruct (iou_bbox eps _ _ t d) as [a|] eqn:E; [|reflexivity].
    elim Hno; now exists a.
  - intros Hd <-; apply Hiff.
    assert (Hdd : d * d <> 0) by nia.
    rewrite Nat.Div0.mod_mul, Nat.div_mul, bshape_same by assumption.
    repeat split; [assumption | congruence].
  - intros Hmod.
    destruct (iou_bbox eps _ _ t d) as [a|] eqn:E; [|reflexivity].
    assert (Hs : succeeds (Ok a)) by now exists a.
    apply Hiff in Hs; tauto.
Qed.

Lemma iou_bbox_outcome_witness :
  succeeds (iou_bbox eps7 block_gt block_pred (1 # 2) 3)
  /\ iou_bbox eps7 y_example x_example 0.6 2 = InvalidArgument.
Proof.
  split.
  - apply (iou_bbox_outcome eps7 (1 # 2) block_gt block_pred 1 9 3);
      first [reflexivity | lia].
  - apply (iou_bbox_outcome eps7 0.6 y_example x_example 3 3 2);
      first [reflexivity | (cbn; lia)].
Defined.

(** ** Properties of the factory and of the report *)

Lemma fold_left_append {A B} (g : A -> B) (ys : list A) (acc : list B) :
  fold_left (fun acc y => acc ++ [g y]) ys acc = acc ++ map g ys.
Proof.
  revert acc; induction ys as [|y ys IH]; intros acc; cbn [fold_left map].
  - now rewrite app_nil_r.
  - now rewrite IH, <- app_assoc.
Qed.

Lemma fold_left_nested {A B C} (h : A -> B -> C) (xs : list A) (ys : list B)
    (acc : list C) :
  fold_left (fun acc x => fold_left (fun acc y => acc ++ [h x y]) ys acc) xs acc
  = acc ++ flat_map (fun x => map (h x) ys) xs.
Proof.
  revert acc; induction xs as [|x xs IH]; intros acc; cbn [fold_left flat_map].
  - now rewrite app_nil_r.
  - now rewrite IH, fold_left_append, <- app_assoc.
Qed.

Lemma nth_error_flat_map {A B C} (h : A -> B -> C) (xs : list A) (ys : list B)
    (k i : nat) (x : A) (y : B) :
  nth_error xs k = Some x -> nth_error ys i = Some y ->
  nth_error (flat_map (fun x => map (h x) ys) xs) (k * length ys + i)
  = Some (h x y).
Proof.
  intros Hx Hy.
  assert (Hk : k < length xs) by (apply nth_error_Some; congruence).
  assert (Hi : i < length ys) by (apply nth_error_Some; congruence).
  apply nth_error_nth with (d := x) in Hx.
  apply nth_error_nth with (d := y) in Hy.
  rewrite flat_map_concat_map.
  rewrite nth_error_nth' with (d := h x y).
  - rewrite nth_concat_all;
      [ | apply Forall_map, Forall_forall; intros; apply length_map
        | assumption ].
    rewrite nth_indep with (d' := (fun x => map (h x) ys) x)
      by (rewrite length_map; lia).
    rewrite (map_nth (fun x => map (h x) ys)), Hx.
    now rewrite (map_nth (h x)), Hy.
  - rewrite (length_concat_all (length ys)), length_map;
      [nia | apply Forall_map, Forall_forall; intros; apply length_map].
Qed.

Lemma get_metrics_flat (eps : Q) (str : Q -> string) (input_dim : nat)
    (ths : list Q) :
  get_metrics eps str input_dim ths
  = flat_map (fun f => map (closed_metric str f) ths)
      (metric_kinds eps input_dim).
Proof.
  unfold get_metrics; cbv zeta.
  now rewrite (fold_left_nested (closed_metric str)).
Qed.

(** C3: [get_metrics] returns 5 * len(thresholds) metrics, the metric
    kinds iou, precision, recall, iou_acc, iou_bbox in this order in the
    outer loop and the thresholds in the given order in the inner loop;
    the metric at position k * len(thresholds) + i is the k-th kind closed
    over the i-th threshold (and over input_dim for iou_bbox) and is named
    "<metric>_<threshold>".  For input_dim 3 and the thresholds [0.5],
    printed "0.5", the names are iou_0.5, precision_0.5, recall_0.5,
    iou_acc_0.5, iou_bbox_0.5 and the metrics are the five functions at
    threshold 0.5. *)
Theorem get_metrics_ordered (eps : Q) (str : Q -> string) (input_dim : nat)
    (ths : list Q) :
  length (get_metrics eps str input_dim ths) = 5 * length ths
  /\ get_metrics eps str input_dim ths
     = flat_map (fun f => map (closed_metric str f) ths)
         (metric_kinds eps input_dim)
  /\ map (@func_name) (metric_kinds eps input_dim)
     = ["iou"; "precision"; "recall"; "iou_acc"; "iou_bbox"]%string
  /\ (forall k i f t,
        nth_error (metric_kinds eps input_dim) k = Some f ->
        nth_error ths i = Some t ->
        exists m,
          nth_error (get_metrics eps str input_dim ths) (k * length ths + i)
          = Some m
          /\ name m = (func_name f ++ "_" ++ str t)%string
          /\ call m = (fun gt pred => func_call f gt pred t))
  /\ (str (1 # 2) = "0.5"%string ->
      map name (get_metrics eps str 3 [1 # 2])
      = ["iou_0.5"; "precision_0.5"; "recall_0.5"; "iou_acc_0.5";
         "iou_bbox_0.5"]%string
      /\ map call (get_metrics eps str 3 [1 # 2])
         = [ (fun gt pred => iou eps gt pred (1 # 2));
             (fun gt pred => precision eps gt pred (1 # 2));
             (fun gt pred => recall eps gt pred (1 # 2));
             (fun gt pred => iou_acc eps gt pred (1 # 2));
             (fun gt pred => iou_bbox eps gt pred (1 # 2) 3) ]).
Proof.
  rewrite !get_metrics_flat.
  split; [|split; [reflexivity | split; [reflexivity | split]]].
  - cbn [metric_kinds flat_map]; rewrite !length_app, !length_map.
    cbn [length]; lia.
  - intros k i f t Hf Ht; eexists; split.
    + now apply (nth_error_flat_map (closed_metric str)) with (x := f) (y := t).
    + split; reflexivity.
  - intros Hstr; cbn [metric_kinds flat_map map app closed_metric name call
                      func_name func_call].
    rewrite Hstr; split; reflexivity.
Qed.

Lemma get_metrics_ordered_witness :
  decimal_str (1 # 2) = "0.5"%string
  /\ map name (get_metrics eps7 decimal_str 3 [1 # 2])
     = ["iou_0.5"; "precision_0.5"; "recall_0.5"; "iou_acc_0.5";
        "iou_bbox_0.5"]%string.
Proof.
  split; [reflexivity|].
  apply (get_metrics_ordered eps7 decimal_str 3 [1 # 2]); reflexivity.
Defined.

(** The integer printed for the thousandths is a nearest one. *)
Lemma round_half_even_nearest (q : Q) :
  (Qabs (inject_Z (round_half_even q) - q) <= 1 # 2)%Q.
Proof.
  apply Qabs_Qle_condition.
  destruct q as [n d]; unfold round_half_even; cbn [Qnum Qden].
  assert (Hd : (0 < Zpos d)%Z) by lia.
  assert (Hdiv := Z.div_mod n (Zpos d) ltac:(lia)).
  assert (Hmod := Z.mod_pos_bound n (Zpos d) Hd).
  set (lo := (n / Zpos d)%Z) in *; set (r := (n mod Zpos d)%Z) in *.
  unfold Qle, Qminus, Qplus, Qopp, inject_Z; cbn [Qnum Qden].
  destruct (Z.ltb_spec (2 * r) (Zpos d)).
  - split; nia.
  - destruct (Z.ltb_spec (Zpos d) (2 * r)).
    + split; nia.
    + destruct (Z.even lo); split; nia.
Qed.

(** C7 (as stated, refuted): with two names and one scalar,
    [format_results] does not fail, it formats the first pair only. *)
Lemma format_results_truncates :
  length ["a"; "b"]%string <> length [Fin 1]
  /\ format_results ["a"; "b"]%string [Fin 1] = Ok "a: 1.000"%string
  /\ format_results ["a"; "b"]%string [Fin 1] <> InvalidArgument.
Proof.
  split; [cbn; lia | split; [reflexivity | discriminate]].
Qed.

Lemma fold_left_append_pairs {A B C} (h : A -> B -> C) (ps : list (A * B))
    (acc : list C) :
  fold_left (fun res '(a, b) => res ++ [h a b]) ps acc
  = acc ++ map (fun p => h (fst p) (snd p)) ps.
Proof.
  revert acc; induction ps as [|[a b] ps IH]; intros acc;
    cbn [fold_left map fst snd].
  - now rewrite app_nil_r.
  - now rewrite IH, <- app_assoc.
Qed.

Lemma combine_firstn_min {A B} (l : list A) (m : list B) :
  combine (firstn (Nat.min (length l) (length m)) l)
          (firstn (Nat.min (length l) (length m)) m)
  = combine l m.
Proof.
  revert m; induction l as [|x l IH]; intros [|y m]; cbn; try reflexivity.
  now rewrite IH.
Qed.

(** C7 (amended): [format_results] never fails.  It pairs names and
    scalars positionally up to the shorter of the two sequences, ignoring
    what is left of the longer one, and returns the pairs as
    "name: value" with the value formatted with 3 decimals (its sign, the
    nearest number of thousandths as integer part, point and three
    digits), joined by ", "; e.g. format_results(["a","b"], [1.0, 2.5]) returns
    "a: 1.000, b: 2.500". *)
Theorem format_results_zip (names : list string) (scalars : list fl) :
  format_results names scalars
  = Ok (String.concat ", "
          (map (fun p => (fst p ++ ": " ++ format_scalar (snd p))%string)
             (combine names scalars)))
  /\ format_results names scalars
     = format_results
         (firstn (Nat.min (length names) (length scalars)) names)
         (firstn (Nat.min (length names) (length scalars)) scalars)
  /\ format_results names scalars <> InvalidArgument
  /\ (forall q : Q,
        let m := round_half_even (Qabs q * 1000) in
        format_scalar (Fin q)
        = ((if Qltb q 0 then "-" else "")
           ++ decimal (m / 1000) ++ "."
           ++ digit (m mod 1000 / 100) ++ digit (m mod 1000 / 10 mod 10)
           ++ digit (m mod 1000 mod 10))%string
        /\ (Qabs (inject_Z m - Qabs q * 1000) <= 1 # 2)%Q)
  /\ format_results ["a"; "b"]%string [Fin 1; Fin 2.5]
     = Ok "a: 1.000, b: 2.500"%string.
Proof.
  assert (H : forall n s, format_results n s
    = Ok (String.concat ", "
            (map (fun p => (fst p ++ ": " ++ format_scalar (snd p))%string)
               (combine n s)))).
  { intros n s; unfold format_results; cbv zeta.
    now rewrite (fold_left_append_pairs
                   (fun a b => (a ++ ": " ++ format_scalar b)%string)). }
  split; [apply H | split; [|split; [|split; [|reflexivity]]]].
  - now rewrite !H, combine_firstn_min.
  - rewrite H; discriminate.
  - intros q m; split; [reflexivity | apply round_half_even_nearest].
Qed.

(** * Further properties of the metrics *)

(** ** Recall as a formula *)

Lemma positive_fmax0_r (c : bool) (a : fl) :
  bit a -> positive (fsub a (b2f c)) = fmax0 (fsub a (b2f c)).
Proof. intros [-> | ->]; destruct c; reflexivity. Qed.

Lemma fn_indicator_is_max (t : Q) (g p : list fl) :
  Forall bit g ->
  map positive (zipWith fsub g (binarize t p))
  = map fmax0 (zipWith fsub g (binarize t p)).
Proof.
  intros Hg; revert p; induction Hg as [|a g Ha _ IH]; intros [|y p];
    try reflexivity.
  cbn [binarize map zipWith]; f_equal; [now apply positive_fmax0_r | apply IH].
Qed.

(** X1: for a ground truth with values in {0,1} and a prediction of the
    same shape (batch, N), [recall] returns the batch mean of
    tp / (tp + fn + eps) with tp = sum(gt * binarized) and
    fn = sum(max(gt - binarized, 0)) per instance. *)
Theorem recall_is_batch_mean (eps t : Q) (gt pred : tensor fl) (b n : nat) :
  wf gt -> wf pred -> shape gt = [b; n] -> shape pred = [b; n] ->
  binary bit gt ->
  recall eps gt pred t
  = Ok (batch_mean
          (zipWith (spec_recall_instance eps t) (rows gt) (rows pred))).
Proof.
  destruct gt as [sg g], pred as [sp p]; unfold wf, rows, binary.
  cbn [shape data].
  intros Hg Hp -> -> Hbit; cbn [nth]; rewrite numel2 in *.
  rewrite recall_rows by assumption.
  unfold binarize at 1; rewrite chunk_map, zipWith_map_r.
  rewrite zipWith_ext with (g := spec_recall_instance eps t);
    [reflexivity|].
  intros x y Hx _; unfold recall_instance, spec_recall_instance.
  cbv zeta; rewrite <- fn_indicator_is_max; [reflexivity|].
  assert (Hall := Forall_chunk bit b n g Hbit).
  rewrite Forall_forall in Hall; now apply Hall.
Qed.

Lemma recall_is_batch_mean_witness :
  wf y_example /\ wf x_example /\ binary bit y_example /\
  recall eps7 y_example x_example 0.6
  = Ok (batch_mean (zipWith (spec_recall_instance eps7 0.6)
                      (rows y_example) (rows x_example))).
Proof.
  split; [reflexivity | split; [reflexivity | split; [bits|]]].
  apply (recall_is_batch_mean eps7 0.6 y_example x_example 3 3);
    first [reflexivity | bits].
Defined.

(** ** Shapes accepted by [iou], [precision], [recall] and [iou_acc] *)

Lemma bdim_compatible (x y : nat) : bdim x y <> None <-> compatible x y.
Proof.
  unfold bdim, compatible.
  destruct (Nat.eqb_spec x y); [split; [auto | congruence]|].
  destruct (Nat.eqb_spec x 1); [split; [auto | congruence]|].
  destruct (Nat.eqb_spec y 1); [split; [auto | congruence]|].
  split; [congruence | intros [? | [? | ?]]; contradiction].
Qed.

Lemma bshape_rank2 (b n m k : nat) :
  bshape [b; n] [m; k] <> None <-> compatible b m /\ compatible n k.
Proof.
  rewrite <- !bdim_compatible; cbn [bshape].
  destruct (bdim b m), (bdim n k);
    (split; [intros H; split; congruence | intros [H1 H2]; congruence]).
Qed.

Lemma bdim_sym (x y : nat) : bdim x y = bdim y x.
Proof.
  unfold bdim.
  destruct (Nat.eqb_spec x y) as [->|]; [now rewrite Nat.eqb_refl|].
  destruct (Nat.eqb_spec y x); [congruence|].
  destruct (Nat.eqb_spec x 1), (Nat.eqb_spec y 1); congruence.
Qed.

Lemma bshape_sym (sa sb : list nat) : bshape sa sb = bshape sb sa.
Proof.
  revert sb; induction sa as [|x sa IH]; intros [|y sb]; try reflexivity.
  cbn [bshape]; now rewrite bdim_sym, IH.
Qed.

Lemma K_binop_scalar_shape_r (f : fl -> fl -> fl) (c : Q) (x : tensor fl)
    (a : nat) :
  shape x = [a] -> ok_shape (K_binop f x (scalar c)) [a].
Proof.
  intros Hx; unfold K_binop; rewrite Hx.
  cbn [scalar shape length Nat.max pad_rank Nat.sub repeat app].
  rewrite bshape_sym, bshape_scalar; now eexists.
Qed.

(** The outcome of the steps shared by [precision] and [recall], for the
    two products [prod] and [diff] of the inputs. *)
Lemma ratio_steps_succeed (eps : Q) (prod diff : tensor fl) (s : list nat) :
  shape prod = s -> shape diff = s -> length s = 2 ->
  succeeds
    (tp <- K_sum prod 1 false ;;
     fx <- K_sum (K_cast (K_greater diff 0)) 1 false ;;
     total <- K_add tp fx ;;
     den <- K_add total (scalar eps) ;;
     values <- K_div tp den ;;
     Ok (K_mean values)).
Proof.
  intros Hp Hd Hs; unfold K_add, K_div.
  destruct (K_sum_rank2 prod s) as (tp & -> & Htp); [congruence|].
  destruct (K_sum_rank2 (K_cast (K_greater diff 0)) s) as (fx & -> & Hfx);
    [cbn [K_cast K_greater shape]; congruence|].
  cbn [bind].
  destruct (K_binop_same_shape fadd tp fx) as (total & -> & Htot).
  { rewrite Htp, Hfx; cbn [K_cast K_greater shape]; congruence. }
  cbn [bind].
  destruct (K_binop_scalar_shape_r fadd eps total _ (eq_trans Htot Htp))
    as (den & -> & Hden).
  cbn [bind].
  destruct (K_binop_same_shape fdiv tp den) as (v & -> & _);
    [congruence|].
  cbn [bind]; now eexists.
Qed.

Lemma precision_outcome (eps t : Q) (y_true y_pred : tensor fl) (b n m k : nat) :
  shape y_true = [b; n] -> shape y_pred = [m; k] ->
  succeeds (precision eps y_true y_pred t) <-> bshape [b; n] [m; k] <> None.
Proof.
  intros Hg Hp; unfold precision, K_mul, K_sub.
  assert (Hc : shape (K_cast (K_greater y_pred t)) = [m; k]) by exact Hp.
  assert (H1 := K_binop_rank2 fmul y_true _ b n m k Hg Hc).
  assert (H2 := K_binop_rank2 fsub _ y_true m k b n Hc Hg).
  rewrite (bshape_sym [m; k]) in H2.
  destruct (bshape [b; n] [m; k]) as [s|].
  - split; [congruence | intros _].
    destruct H1 as [(prod & -> & Hprod) Hs], H2 as [(diff & E & Hdiff) _].
    cbn [bind].
    destruct (K_sum prod 1 false) as [tp|] eqn:Etp;
      [|destruct (K_sum_rank2 prod s) as (? & ? & _); congruence].
    cbn [bind]; rewrite E; cbn [bind].
    pose proof (ratio_steps_succeed eps prod diff s Hprod Hdiff Hs) as H.
    rewrite Etp in H; exact H.
  - rewrite H1; cbn [bind].
    split; [intros [a H]; discriminate | congruence].
Qed.

Lemma recall_outcome (eps t : Q) (y_true y_pred : tensor fl) (b n m k : nat) :
  shape y_true = [b; n] -> shape y_pred = [m; k] ->
  succeeds (recall eps y_true y_pred t) <-> bshape [b; n] [m; k] <> None.
Proof.
  intros Hg Hp; unfold recall, K_mul, K_sub.
  assert (Hc : shape (K_cast (K_greater y_pred t)) = [m; k]) by exact Hp.
  assert (H1 := K_binop_rank2 fmul y_true _ b n m k Hg Hc).
  assert (H2 := K_binop_rank2 fsub y_true _ b n m k Hg Hc).
  destruct (bshape [b; n] [m; k]) as [s|].
  - split; [congruence | intros _].
    destruct H1 as [(prod & -> & Hprod) Hs], H2 as [(diff & E & Hdiff) _].
    cbn [bind].
    destruct (K_sum prod 1 false) as [tp|] eqn:Etp;
      [|destruct (K_sum_rank2 prod s) as (? & ? & _); congruence].
    cbn [bind]; rewrite E; cbn [bind].
    pose proof (ratio_steps_succeed eps prod diff s Hprod Hdiff Hs) as H.
    rewrite Etp in H; exact H.
  - rewrite H1; cbn [bind].
    split; [intros [a H]; discriminate | congruence].
Qed.

Lemma iou_acc_outcome (eps t : Q) (y_true y_pred : tensor fl) (b n m k : nat) :
  shape y_true = [b; n] -> shape y_pred = [m; k] ->
  succeeds (iou_acc eps y_true y_pred t) <-> bshape [b; n] [m; k] <> None.
Proof.
  intros Hg Hp.
  rewrite <- (iou_of_mask_outcome eps y_true (K_cast (K_greater y_pred t))
                b n m k Hg Hp).
  unfold iou_acc, iou_of_mask.
  destruct (K_mul y_true _) as [i|]; cbn [bind]; [|reflexivity].
  destruct (K_add y_true _) as [u|]; cbn [bind]; [|reflexivity].
  destruct (K_sum i 1 false) as [num|]; cbn [bind]; [|reflexivity].
  destruct (K_sum _ 1 false) as [usum|]; cbn [bind]; [|reflexivity].
  destruct (K_add (scalar eps) usum) as [den|]; cbn [bind]; [|reflexivity].
  destruct (K_div num den) as [v|]; cbn [bind]; [|reflexivity].
  split; intros _; now eexists.
Qed.

Lemma not_succeeds_fails {A} (r : result A) :
  ~ succeeds r -> r = InvalidArgument.
Proof.
  destruct r as [a|]; [intros H; elim H; now exists a | reflexivity].
Qed.

(** X2: on inputs of shapes (b, n) and (m, k), each of [iou], [precision],
    [recall] and [iou_acc] succeeds exactly when the two shapes broadcast,
    that is when b and m are equal or one of them is 1, and likewise n and
    k; otherwise each fails with InvalidArgument.  Shapes that differ are
    thus accepted when they broadcast. *)
Theorem plain_metrics_outcome (eps t : Q) (gt pred : tensor fl)
    (b n m k : nat) :
  shape gt = [b; n] -> shape pred = [m; k] ->
  (succeeds (iou eps gt pred t) <-> compatible b m /\ compatible n k)
  /\ (succeeds (precision eps gt pred t) <-> compatible b m /\ compatible n k)
  /\ (succeeds (recall eps gt pred t) <-> compatible b m /\ compatible n k)
  /\ (succeeds (iou_acc eps gt pred t) <-> compatible b m /\ compatible n k)
  /\ (~ (compatible b m /\ compatible n k) ->
      iou eps gt pred t = InvalidArgument
      /\ precision eps gt pred t = InvalidArgument
      /\ recall eps gt pred t = InvalidArgument
      /\ iou_acc eps gt pred t = InvalidArgument).
Proof.
  intros Hg Hp.
  assert (H1 : succeeds (iou eps gt pred t)
               <-> compatible b m /\ compatible n k).
  { rewrite <- bshape_rank2.
    exact (iou_of_mask_outcome eps gt (K_cast (K_greater pred t))
             b n m k Hg Hp). }
  assert (H2 := precision_outcome eps t gt pred b n m k Hg Hp).
  assert (H3 := recall_outcome eps t gt pred b n m k Hg Hp).
  assert (H4 := iou_acc_outcome eps t gt pred b n m k Hg Hp).
  rewrite bshape_rank2 in H2, H3, H4.
  repeat (split; [assumption|]).
  intros Hno; repeat split; apply not_succeeds_fails; tauto.
Qed.

Lemma plain_metrics_outcome_witness :
  succeeds (iou eps7 column_gt wide_pred (1 # 2))
  /\ precision eps7 column_gt tall_pred (1 # 2) = InvalidArgument.
Proof.
  split.
  - apply (plain_metrics_outcome eps7 (1 # 2) column_gt wide_pred 2 1 2 3);
      [reflexivity | reflexivity | unfold compatible; lia].
  - apply (plain_metrics_outcome eps7 (1 # 2) column_gt tall_pred 2 1 3 2);
      [reflexivity | reflexivity | unfold compatible; lia].
Defined.

Lemma K_binop_rank1 (f : fl -> fl -> fl) (x y : tensor fl) (n m : nat) :
  shape x = [n] -> shape y = [m] ->
  K_binop f x y = InvalidArgument
  \/ exists c, K_binop f x y = Ok c /\ length (shape c) = 1.
Proof.
  intros Hx Hy; unfold K_binop; rewrite Hx, Hy.
  cbn [length Nat.max pad_rank Nat.sub repeat app bshape].
  destruct (bdim n m); [right; now eexists | now left].
Qed.

Lemma K_sum_rank1 (x : tensor fl) (keepdims : bool) :
  length (shape x) = 1 -> K_sum x 1 keepdims = InvalidArgument.
Proof. intros H; unfold K_sum; now rewrite H. Qed.

(** X3: on vectors (inputs of rank 1, without batch axis) each of [iou],
    [precision], [recall] and [iou_acc] fails with InvalidArgument, whatever
    the lengths: the sum over axis 1 has no axis to reduce. *)
Theorem plain_metrics_reject_vectors (eps t : Q) (gt pred : tensor fl)
    (n m : nat) :
  shape gt = [n] -> shape pred = [m] ->
  iou eps gt pred t = InvalidArgument
  /\ precision eps gt pred t = InvalidArgument
  /\ recall eps gt pred t = InvalidArgument
  /\ iou_acc eps gt pred t = InvalidArgument.
Proof.
  intros Hg Hp.
  assert (Hc : shape (K_cast (K_greater pred t)) = [m]) by exact Hp.
  unfold iou, precision, recall, iou_acc, K_mul.
  destruct (K_binop_rank1 fmul gt _ n m Hg Hc) as [-> | (c & -> & Hr)];
    cbn [bind]; [repeat split; reflexivity|].
  rewrite (K_sum_rank1 c false Hr).
  unfold K_add.
  destruct (K_binop_rank1 fadd gt _ n m Hg Hc) as [-> | (u & -> & Hu)];
    cbn [bind]; repeat split; reflexivity.
Qed.

Lemma plain_metrics_reject_vectors_witness :
  iou eps7 vector_gt vector_pred (1 # 2) = InvalidArgument
  /\ recall eps7 vector_gt vector_pred (1 # 2) = InvalidArgument.
Proof.
  split;
    apply (plain_metrics_reject_vectors eps7 (1 # 2) vector_gt vector_pred 3 3);
    reflexivity.
Defined.

(** X4: [iou_bbox] rejects a pair of unflattened images: for inputs of
    shape (d, d) with d > 1 and input_dim = d the reshape yields one image,
    whose mask of shape (1, d*d) does not broadcast against the ground
    truth, and the call fails with InvalidArgument.  The call of the
    module's self-test, on two 3 x 3 arrays with input_dim 3, is such a
    call. *)
Theorem iou_bbox_rejects_square_inputs (eps t : Q) (gt pred : tensor fl)
    (d : nat) :
  1 < d -> wf pred -> shape gt = [d; d] -> shape pred = [d; d] ->
  iou_bbox eps gt pred t d = InvalidArgument.
Proof.
  destruct pred as [sp p]; unfold wf; cbn [shape data].
  intros Hd Hp Hg ->; rewrite numel2 in Hp.
  apply not_succeeds_fails; unfold iou_bbox.
  rewrite (iou_bbox_mask_numel t d [d; d] [1; d * d])
    by (rewrite !numel2; lia).
  rewrite iou_bbox_mask_images by lia; cbn [bind].
  rewrite (iou_of_mask_outcome eps gt _ d d 1 (d * d)) by auto.
  rewrite bshape_rank2; unfold compatible; nia.
Qed.

Lemma iou_bbox_rejects_square_inputs_witness :
  iou_bbox eps7 y_example x_example 0.6 3 = InvalidArgument.
Proof.
  apply (iou_bbox_rejects_square_inputs eps7 0.6 y_example x_example 3);
    first [lia | reflexivity].
Defined.

(** ** Relations between the metrics *)

Lemma instance_counts (g p : list fl) :
  Forall bit g -> Forall bit p ->
  exists tp fp fn u : Q,
    fsum (zipWith fmul g p) = Fin tp
    /\ fsum (map positive (zipWith fsub p g)) = Fin fp
    /\ fsum (map positive (zipWith fsub g p)) = Fin fn
    /\ fsum (map positive (zipWith fadd g p)) = Fin u
    /\ (0 <= tp)%Q /\ (0 <= fp)%Q /\ (0 <= fn)%Q
    /\ (u == tp + fp + fn)%Q.
Proof.
  intros Hg; revert p; induction Hg as [|a g Ha _ IH]; intros p Hp.
  - exists 0%Q, 0%Q, 0%Q, 0%Q; destruct p; cbn; repeat split; lra.
  - destruct Hp as [|c p Hc Hp];
      [exists 0%Q, 0%Q, 0%Q, 0%Q; cbn; repeat split; lra|].
    destruct (IH p Hp) as (tp & fp & fn & u & H1 & H2 & H3 & H4 & Hle).
    cbn [zipWith map fsum fold_right].
    fold (fsum (zipWith fmul g p)).
    fold (fsum (map positive (zipWith fsub p g))).
    fold (fsum (map positive (zipWith fsub g p))).
    fold (fsum (map positive (zipWith fadd g p))).
    rewrite H1, H2, H3, H4.
    destruct Ha as [-> | ->], Hc as [-> | ->]; cbn;
      do 4 eexists;
      (split; [reflexivity | split; [reflexivity | split;
        [reflexivity | split; [reflexivity | lra]]]]).
Qed.

Lemma Qdiv_le_den (a b c : Q) :
  (0 <= a)%Q -> (0 < c)%Q -> (c <= b)%Q -> (a / b <= a / c)%Q.
Proof.
  intros Ha Hc Hcb.
  apply Qle_shift_div_l; [assumption|].
  assert (Hx : (0 <= a / b)%Q) by (apply Qle_shift_div_l; lra).
  assert (E : (a / b * b == a)%Q) by (field; lra).
  rewrite <- E at 2.
  apply Qmult_le_compat_nonneg; split; lra.
Qed.

Lemma Qdiv_le_num (a b c : Q) :
  (a <= b)%Q -> (0 < c)%Q -> (a / c <= b / c)%Q.
Proof.
  intros Hab Hc; unfold Qdiv.
  apply Qmult_le_compat_r; [assumption|].
  apply Qlt_le_weak, Qinv_lt_0_compat; assumption.
Qed.

Lemma fsum_le (l1 l2 : list fl) :
  Forall2 fl_le l1 l2 -> fl_le (fsum l1) (fsum l2).
Proof.
  induction 1 as [|x y l1 l2 (a & b & -> & -> & Hab) _ (s1 & s2 & H1 & H2 & Hs)].
  - exists 0%Q, 0%Q; repeat split; lra.
  - cbn [fsum fold_right]; fold (fsum l1); fold (fsum l2).
    rewrite H1, H2; cbn [fadd].
    do 2 eexists; split; [reflexivity | split; [reflexivity | lra]].
Qed.

Lemma batch_mean_le (l1 l2 : list fl) :
  Forall2 fl_le l1 l2 -> 0 < length l1 ->
  fl_le (batch_mean l1) (batch_mean l2).
Proof.
  intros H Hne.
  assert (Hlen := Forall2_length H).
  destruct (fsum_le l1 l2 H) as (s1 & s2 & H1 & H2 & Hs).
  unfold batch_mean; rewrite H1, H2, <- Hlen; cbn [fdiv].
  assert (Hn : (0 < inject_Z (Z.of_nat (length l1)))%Q)
    by (change 0%Q with (inject_Z 0); rewrite <- Zlt_Qlt; lia).
  set (k := inject_Z (Z.of_nat (length l1))) in *.
  rewrite Qzerob_false by lra.
  do 2 eexists; split; [reflexivity | split; [reflexivity|]].
  now apply Qdiv_le_num.
Qed.

Lemma Forall2_zipWith {A B C} (P : A -> Prop) (R : B -> Prop)
    (S : C -> C -> Prop) (f f' : A -> B -> C) (a : list A) (b : list B) :
  (forall x y, P x -> R y -> S (f x y) (f' x y)) ->
  Forall P a -> Forall R b ->
  Forall2 S (zipWith f a b) (zipWith f' a b).
Proof.
  intros H Ha; revert b; induction Ha as [|x a Hx _ IH]; intros b Hb;
    [constructor|].
  destruct Hb as [|y b Hy Hb]; constructor; auto.
Qed.

Lemma iou_le_precision_instance (eps : Q) (g p : list fl) :
  (0 < eps)%Q -> Forall bit g -> Forall bit p ->
  fl_le (iou_instance eps g p) (precision_instance eps g p).
Proof.
  intros Heps Hg Hp.
  destruct (instance_counts g p Hg Hp)
    as (tp & fp & fn & u & H1 & H2 & H3 & H4 & Htp & Hfp & Hfn & Hu).
  unfold iou_instance, precision_instance; cbv zeta.
  rewrite H1, H2, H4; cbn [fadd fdiv].
  rewrite !Qzerob_false by lra.
  do 2 eexists; split; [reflexivity | split; [reflexivity|]].
  apply Qdiv_le_den; lra.
Qed.

Lemma iou_le_recall_instance (eps : Q) (g p : list fl) :
  (0 < eps)%Q -> Forall bit g -> Forall bit p ->
  fl_le (iou_instance eps g p) (recall_instance eps g p).
Proof.
  intros Heps Hg Hp.
  destruct (instance_counts g p Hg Hp)
    as (tp & fp & fn & u & H1 & H2 & H3 & H4 & Htp & Hfp & Hfn & Hu).
  unfold iou_instance, recall_instance; cbv zeta.
  rewrite H1, H3, H4; cbn [fadd fdiv].
  rewrite !Qzerob_false by lra.
  do 2 eexists; split; [reflexivity | split; [reflexivity|]].
  apply Qdiv_le_den; lra.
Qed.

Lemma value_le_of_means (l1 l2 : list fl) :
  Forall2 fl_le l1 l2 -> 0 < length l1 ->
  value_le (Ok (batch_mean l1)) (Ok (batch_mean l2)).
Proof.
  intros H Hne.
  destruct (batch_mean_le l1 l2 H Hne) as (a & b & -> & -> & Hab).
  now exists a, b.
Qed.

(** X5: for a ground truth with values in {0,1} and a prediction of the
    same shape (batch, N) with at least one instance, and a positive
    epsilon, the IoU never exceeds the precision nor the recall: the union
    of an instance counts its true positives, false positives and false
    negatives, so its IoU has the largest denominator. *)
Theorem iou_below_precision_and_recall (eps t : Q) (gt pred : tensor fl)
    (b n : nat) :
  (0 < eps)%Q -> 0 < b -> wf gt -> wf pred ->
  shape gt = [b; n] -> shape pred = [b; n] -> binary bit gt ->
  value_le (iou eps gt pred t) (precision eps gt pred t)
  /\ value_le (iou eps gt pred t) (recall eps gt pred t).
Proof.
  destruct gt as [sg g], pred as [sp p]; unfold wf, binary; cbn [shape data].
  intros Heps Hb Hg Hp -> -> Hbit; rewrite numel2 in *.
  assert (Hbin := Forall_bit_binarize t p).
  rewrite iou_rows, precision_rows, recall_rows by assumption.
  split; apply value_le_of_means;
    try (now rewrite length_zip_chunks);
    apply Forall2_zipWith with (P := Forall bit) (R := Forall bit);
    auto using Forall_chunk, iou_le_precision_instance,
      iou_le_recall_instance.
Qed.

Lemma iou_below_precision_and_recall_witness :
  value_le (iou eps7 y_example x_example 0.6)
    (precision eps7 y_example x_example 0.6)
  /\ value_le (iou eps7 y_example x_example 0.6)
       (recall eps7 y_example x_example 0.6).
Proof.
  apply (iou_below_precision_and_recall eps7 0.6 y_example x_example 3 3);
    first [reflexivity | lia | bits].
Defined.

(** ** Raising the threshold *)

Lemma fgreater_mono (v : fl) (t1 t2 : Q) :
  (t1 <= t2)%Q -> fgreater v t2 = true -> fgreater v t1 = true.
Proof.
  intros Ht; destruct v as [q| | |]; cbn [fgreater]; try easy.
  rewrite !Qltb_lt; lra.
Qed.

Lemma recall_counts_mono (t1 t2 : Q) (g y : list fl) :
  (t1 <= t2)%Q -> Forall bit g ->
  exists tp1 fn1 tp2 fn2 : Q,
    fsum (zipWith fmul g (binarize t1 y)) = Fin tp1
    /\ fsum (map positive (zipWith fsub g (binarize t1 y))) = Fin fn1
    /\ fsum (zipWith fmul g (binarize t2 y)) = Fin tp2
    /\ fsum (map positive (zipWith fsub g (binarize t2 y))) = Fin fn2
    /\ (0 <= tp2 <= tp1)%Q /\ (0 <= fn1)%Q
    /\ (tp1 + fn1 == tp2 + fn2)%Q.
Proof.
  intros Ht Hg; revert y; induction Hg as [|a g Ha _ IH]; intros y.
  - exists 0%Q, 0%Q, 0%Q, 0%Q; cbn; repeat split; lra.
  - destruct y as [|v y];
      [exists 0%Q, 0%Q, 0%Q, 0%Q; cbn; repeat split; lra|].
    destruct (IH y) as (tp1 & fn1 & tp2 & fn2 & H1 & H2 & H3 & H4 & Hle).
    cbn [binarize map zipWith fsum fold_right].
    fold (binarize t1 y); fold (binarize t2 y).
    fold (fsum (zipWith fmul g (binarize t1 y))).
    fold (fsum (map positive (zipWith fsub g (binarize t1 y)))).
    fold (fsum (zipWith fmul g (binarize t2 y))).
    fold (fsum (map positive (zipWith fsub g (binarize t2 y)))).
    rewrite H1, H2, H3, H4.
    assert (Hm := fgreater_mono v t1 t2 Ht).
    destruct (fgreater v t2) eqn:E2;
      [rewrite (Hm eq_refl) | destruct (fgreater v t1)];
      destruct Ha as [-> | ->]; cbn;
      do 4 eexists;
      (split; [reflexivity | split; [reflexivity | split;
        [reflexivity | split; [reflexivity | lra]]]]).
Qed.

Lemma recall_instance_mono (eps t1 t2 : Q) (g y : list fl) :
  (0 < eps)%Q -> (t1 <= t2)%Q -> Forall bit g ->
  fl_le (recall_instance eps g (binarize t2 y))
        (recall_instance eps g (binarize t1 y)).
Proof.
  intros Heps Ht Hg.
  destruct (recall_counts_mono t1 t2 g y Ht Hg)
    as (tp1 & fn1 & tp2 & fn2 & H1 & H2 & H3 & H4 & Htp & Hfn & Hsum).
  unfold recall_instance; cbv zeta.
  rewrite H1, H2, H3, H4; cbn [fadd fdiv].
  rewrite !Qzerob_false by lra.
  do 2 eexists; split; [reflexivity | split; [reflexivity|]].
  assert (E : (tp2 + fn2 + eps == tp1 + fn1 + eps)%Q) by lra.
  rewrite E; apply Qdiv_le_num; lra.
Qed.

Lemma Forall_any {A} (l : list A) : Forall (fun _ => True) l.
Proof. apply Forall_forall; auto. Qed.

(** X6: for a ground truth with values in {0,1} and a prediction of the
    same shape (batch, N) with at least one instance, and a positive
    epsilon, raising the threshold never raises the recall: the positives
    of the ground truth are fixed and a higher threshold keeps fewer of
    them. *)
Theorem recall_decreases_with_threshold (eps t1 t2 : Q) (gt pred : tensor fl)
    (b n : nat) :
  (0 < eps)%Q -> (t1 <= t2)%Q -> 0 < b -> wf gt -> wf pred ->
  shape gt = [b; n] -> shape pred = [b; n] -> binary bit gt ->
  value_le (recall eps gt pred t2) (recall eps gt pred t1).
Proof.
  destruct gt as [sg g], pred as [sp p]; unfold wf, binary; cbn [shape data].
  intros Heps Ht Hb Hg Hp -> -> Hbit; rewrite numel2 in *.
  rewrite !recall_rows by assumption.
  unfold binarize at 1 2; rewrite !chunk_map, !zipWith_map_r.
  apply value_le_of_means; [|now rewrite length_zip_chunks].
  apply Forall2_zipWith with (P := Forall bit) (R := fun _ => True);
    auto using Forall_chunk, Forall_any.
  intros x y Hx _; now apply recall_instance_mono.
Qed.

Lemma recall_decreases_with_threshold_witness :
  value_le (recall eps7 y_example x_example 0.8)
    (recall eps7 y_example x_example 0.6).
Proof.
  apply (recall_decreases_with_threshold eps7 0.6 0.8 y_example x_example 3 3);
    first [reflexivity | lia | bits | (unfold Qle; cbn; lia)].
Defined.

(** ** A prediction that matches the ground truth *)

Lemma self_counts (x : list fl) :
  Forall bit x ->
  exists k z u : Q,
    fsum (zipWith fmul x x) = Fin k
    /\ fsum (map positive (zipWith fsub x x)) = Fin z
    /\ fsum (map positive (zipWith fadd x x)) = Fin u
    /\ (0 <= k)%Q /\ (z == 0)%Q /\ (u == k)%Q
    /\ (existsb (fun v => fgreater v 0) x = true -> (1 <= k)%Q).
Proof.
  induction 1 as [|a x Ha _ (k & z & u & H1 & H2 & H3 & Hk & Hz & Hu & Hex)].
  - exists 0%Q, 0%Q, 0%Q; cbn; repeat split; try lra; discriminate.
  - cbn [zipWith map fsum fold_right existsb].
    fold (fsum (zipWith fmul x x)).
    fold (fsum (map positive (zipWith fsub x x))).
    fold (fsum (map positive (zipWith fadd x x))).
    rewrite H1, H2, H3.
    destruct Ha as [-> | ->]; cbn;
      do 3 eexists;
      (split; [reflexivity | split; [reflexivity | split; [reflexivity|]]]);
      repeat split; try lra; intros E; try lra.
    apply Hex in E; lra.
Qed.

Lemma fl_same_le (x y : fl) : fl_same x y -> fl_le x y /\ fl_le y x.
Proof.
  intros (a & b & -> & -> & E); split; do 2 eexists;
    (split; [reflexivity | split; [reflexivity | lra]]).
Qed.

Lemma Forall2_fl_same (l1 l2 : list fl) :
  Forall2 fl_same l1 l2 -> Forall2 fl_le l1 l2 /\ Forall2 fl_le l2 l1.
Proof.
  induction 1 as [|x y l1 l2 H _ [IH1 IH2]]; [split; constructor|].
  apply fl_same_le in H; destruct H; split; constructor; assumption.
Qed.

Lemma same_value_of_means (l1 l2 : list fl) :
  Forall2 fl_same l1 l2 -> 0 < length l1 ->
  same_value (Ok (batch_mean l1)) (Ok (batch_mean l2)).
Proof.
  intros H Hne; destruct (Forall2_fl_same l1 l2 H) as [H12 H21].
  assert (Hlen := Forall2_length H).
  destruct (batch_mean_le l1 l2 H12 Hne) as (a & b & Ha & Hb & Hab).
  destruct (batch_mean_le l2 l1 H21 ltac:(lia)) as (b' & a' & Hb' & Ha' & Hba).
  rewrite Ha, Hb in *.
  injection Ha' as <-; injection Hb' as <-.
  exists a, b; repeat split; lra.
Qed.

Lemma matched_instance (eps : Q) (x : list fl) :
  (0 < eps)%Q -> Forall bit x ->
  fl_same (iou_instance eps x x) (precision_instance eps x x)
  /\ fl_same (iou_instance eps x x) (recall_instance eps x x)
  /\ (existsb (fun v => fgreater v 0) x = true -> (eps <= 1 # 2)%Q ->
      exists q : Q, iou_instance eps x x = Fin q /\ (2 # 3 <= q <= 1)%Q).
Proof.
  intros Heps Hx.
  destruct (self_counts x Hx) as (k & z & u & H1 & H2 & H3 & Hk & Hz & Hu & Hex).
  unfold iou_instance, precision_instance, recall_instance; cbv zeta.
  rewrite H1, H2, H3; cbn [fadd fdiv].
  rewrite !Qzerob_false by lra.
  assert (E : (k + z + eps == eps + u)%Q) by lra.
  split; [|split].
  - do 2 eexists; split; [reflexivity | split; [reflexivity|]].
    now rewrite E.
  - do 2 eexists; split; [reflexivity | split; [reflexivity|]].
    now rewrite E.
  - intros Hpos Hlt; specialize (Hex Hpos).
    eexists; split; [reflexivity|].
    assert (Hden : (0 < eps + u)%Q) by lra.
    split.
    + apply Qle_shift_div_l; lra.
    + apply Qle_shift_div_r; lra.
Qed.

Lemma zipWith_diag {A C} (f : A -> A -> C) (l : list A) :
  zipWith f l l = map (fun x => f x x) l.
Proof. induction l as [|x l IH]; simpl; [reflexivity | now rewrite IH]. Qed.

Lemma Forall2_map_same {A C} (P : A -> Prop) (S : C -> C -> Prop)
    (f f' : A -> C) (l : list A) :
  (forall x, P x -> S (f x) (f' x)) -> Forall P l ->
  Forall2 S (map f l) (map f' l).
Proof. intros H; induction 1; constructor; auto. Qed.

Lemma fsum_between (lo hi : Q) (l : list fl) :
  Forall (fun v => exists q : Q, v = Fin q /\ (lo <= q <= hi)%Q) l ->
  exists s : Q,
    fsum l = Fin s
    /\ (lo * inject_Z (Z.of_nat (length l)) <= s
        <= hi * inject_Z (Z.of_nat (length l)))%Q.
Proof.
  induction 1 as [|v l (q & -> & Hq) _ (s & Hs & Hb)].
  - exists 0%Q; split; [reflexivity|].
    change (inject_Z (Z.of_nat (length (@nil fl)))) with 0%Q; lra.
  - cbn [fsum fold_right]; fold (fsum l); rewrite Hs; cbn [fadd].
    eexists; split; [reflexivity|].
    cbn [length]; rewrite Nat2Z.inj_succ; unfold Z.succ.
    rewrite inject_Z_plus; change (inject_Z 1) with 1%Q.
    set (k := inject_Z (Z.of_nat (length l))) in *.
    rewrite !Qmult_plus_distr_r, !Qmult_1_r; lra.
Qed.

Lemma mean_between (lo hi : Q) (l : list fl) :
  Forall (fun v => exists q : Q, v = Fin q /\ (lo <= q <= hi)%Q) l ->
  0 < length l -> value_between lo hi (Ok (batch_mean l)).
Proof.
  intros H Hne; destruct (fsum_between lo hi l H) as (s & Hs & Hb).
  assert (Hn : (0 < inject_Z (Z.of_nat (length l)))%Q)
    by (change 0%Q with (inject_Z 0); rewrite <- Zlt_Qlt; lia).
  unfold batch_mean; rewrite Hs; cbn [fdiv].
  set (k := inject_Z (Z.of_nat (length l))) in *.
  rewrite Qzerob_false by lra.
  eexists; split; [reflexivity | split].
  - apply Qle_shift_div_l; lra.
  - apply Qle_shift_div_r; lra.
Qed.

Lemma existsb_binarize (t : Q) (row : list fl) :
  existsb (fun v => fgreater v 0) (binarize t row)
  = existsb (fun v => fgreater v t) row.
Proof.
  unfold binarize; rewrite existsb_map.
  apply existsb_ext_in; intros v _; apply fgreater_b2f.
Qed.

(** X7: when the ground truth is the binarized prediction itself, on a
    batch with at least one instance and with a positive epsilon, [iou],
    [precision] and [recall] return the same value; if moreover every
    instance has a predicted cell and epsilon is at most 1/2, that value
    lies above the cutoff 1/2 of [iou_acc] and is at most 1, and [iou_acc]
    returns 1. *)
Theorem perfect_prediction (eps t : Q) (pred : tensor fl) (b n : nat) :
  (0 < eps)%Q -> 0 < b -> wf pred -> shape pred = [b; n] ->
  let gt := K_cast (K_greater pred t) in
  same_value (iou eps gt pred t) (precision eps gt pred t)
  /\ same_value (iou eps gt pred t) (recall eps gt pred t)
  /\ ((eps <= 1 # 2)%Q -> all_detected t pred ->
      above_half (iou eps gt pred t)
      /\ is_one (iou_acc eps gt pred t)).
Proof.
  destruct pred as [sp p]; unfold wf, all_detected, rows.
  cbn [shape data K_cast K_greater].
  intros Heps Hb Hp ->; cbn [nth]; rewrite numel2 in *.
  unfold K_cast, K_greater; cbn [shape data]; rewrite map_map.
  change (map (fun x => b2f (fgreater x t)) p) with (binarize t p).
  assert (HL : length (binarize t p) = b * n)
    by (unfold binarize; now rewrite length_map).
  rewrite iou_rows, precision_rows, recall_rows, iou_acc_rows by assumption.
  rewrite !zipWith_diag.
  assert (Hbits : Forall (Forall bit) (chunk b n (binarize t p)))
    by apply Forall_chunk, Forall_bit_binarize.
  assert (Hlen : 0 < length (map (fun x => iou_instance eps x x)
                               (chunk b n (binarize t p))))
    by now rewrite length_map, length_chunk.
  split; [|split].
  - apply same_value_of_means; [|assumption].
    apply Forall2_map_same with (P := Forall bit); [|assumption].
    intros x Hx; now apply matched_instance.
  - apply same_value_of_means; [|assumption].
    apply Forall2_map_same with (P := Forall bit); [|assumption].
    intros x Hx; now apply matched_instance.
  - intros Hlt Hdet.
    assert (Hall : Forall (fun x => Forall bit x
                     /\ existsb (fun v => fgreater v 0) x = true)
                     (chunk b n (binarize t p))).
    { unfold binarize at 1; rewrite chunk_map.
      apply Forall_map.
      rewrite Forall_forall in *; intros row Hin; split.
      - apply (Forall_bit_binarize t row).
      - fold (binarize t row); rewrite existsb_binarize; now apply Hdet. }
    split.
    + destruct (mean_between (2 # 3) 1
                  (map (fun x => iou_instance eps x x)
                     (chunk b n (binarize t p))))
        as (q & Hq & Hq1); [|assumption|].
      * apply Forall_map; eapply Forall_impl; [|exact Hall].
        intros x [Hx Hex].
        destruct (matched_instance eps x Heps Hx) as (_ & _ & H).
        destruct (H Hex Hlt) as (q & -> & Hq); now exists q.
      * exists q; split; [assumption | lra].
    + destruct (mean_between 1 1
                  (map (fun v => b2f (fgreater v (1 # 2)))
                     (map (fun x => iou_instance eps x x)
                        (chunk b n (binarize t p)))))
        as (q & Hq & Hq1).
      * rewrite map_map; apply Forall_map.
        eapply Forall_impl; [|exact Hall].
        intros x [Hx Hex].
        destruct (matched_instance eps x Heps Hx) as (_ & _ & H).
        destruct (H Hex Hlt) as (q & -> & Hq).
        assert (Hhalf : (1 # 2 < q)%Q) by lra.
        cbn [fgreater]; apply Qltb_lt in Hhalf; rewrite Hhalf.
        exists 1%Q; split; [reflexivity | lra].
      * now rewrite length_map.
      * exists q; split; [assumption | lra].
Qed.

Lemma perfect_prediction_witness :
  same_value (iou eps7 match_gt match_pred (1 # 2))
    (precision eps7 match_gt match_pred (1 # 2))
  /\ above_half (iou eps7 match_gt match_pred (1 # 2))
  /\ is_one (iou_acc eps7 match_gt match_pred (1 # 2)).
Proof.
  pose proof (perfect_prediction eps7 (1 # 2) match_pred 2 3) as H.
  destruct H as (H1 & _ & H3);
    [reflexivity | lia | reflexivity | reflexivity | ].
  split; [exact H1|].
  apply H3; [unfold Qle; cbn; lia|].
  unfold all_detected; cbn; repeat (constructor; [reflexivity|]); constructor.
Defined.

(** ** Exchanging ground truth and prediction *)

Lemma Qmult_comm_eq (x y : Q) : (x * y)%Q = (y * x)%Q.
Proof. unfold Qmult; f_equal; [apply Z.mul_comm | apply Pos.mul_comm]. Qed.

Lemma fmul_comm (a b : fl) : fmul a b = fmul b a.
Proof.
  destruct a, b; cbn [fmul]; try reflexivity.
  f_equal; apply Qmult_comm_eq.
Qed.

Lemma zipWith_comm {A C} (f : A -> A -> C) (l m : list A) :
  (forall x y, f x y = f y x) -> zipWith f l m = zipWith f m l.
Proof.
  intros H; revert m; induction l as [|x l IH]; intros [|y m]; simpl;
    try reflexivity.
  now rewrite H, IH.
Qed.

Lemma binarize_bits (t : Q) (g : list fl) :
  (0 <= t < 1)%Q -> Forall bit g -> binarize t g = g.
Proof.
  intros Ht Hg; induction Hg as [|a g Ha _ IH]; [reflexivity|].
  cbn [binarize map]; fold (binarize t g); rewrite IH; f_equal.
  destruct Ha as [-> | ->]; cbn [fgreater].
  - replace (Qltb t 0) with false; [reflexivity|].
    symmetry; apply Qltb_ge; lra.
  - replace (Qltb t 1) with true; [reflexivity|].
    symmetry; apply Qltb_lt; lra.
Qed.

Lemma recall_precision_instance (eps : Q) (x y : list fl) :
  recall_instance eps x y = precision_instance eps y x.
Proof.
  unfold recall_instance, precision_instance; cbv zeta.
  now rewrite (zipWith_comm fmul x y fmul_comm).
Qed.

Lemma iou_instance_sym (eps : Q) (x y : list fl) :
  iou_instance eps x y = iou_instance eps y x.
Proof.
  unfold iou_instance.
  now rewrite (zipWith_comm fmul x y fmul_comm),
    (zipWith_comm fadd x y fadd_comm).
Qed.

(** X8: for a ground truth with values in {0,1} and a prediction of the
    same shape (batch, N), exchanging the roles of the ground truth and of
    the binarized prediction exchanges precision and recall and leaves the
    IoU unchanged, whatever threshold in [0,1) binarizes the ground truth
    in its new role. *)
Theorem exchange_of_roles (eps t t' : Q) (gt pred : tensor fl) (b n : nat) :
  (0 <= t' < 1)%Q -> wf gt -> wf pred ->
  shape gt = [b; n] -> shape pred = [b; n] -> binary bit gt ->
  let binarized := K_cast (K_greater pred t) in
  precision eps gt pred t = recall eps binarized gt t'
  /\ recall eps gt pred t = precision eps binarized gt t'
  /\ iou eps gt pred t = iou eps binarized gt t'.
Proof.
  destruct gt as [sg g], pred as [sp p]; unfold wf, binary; cbn [shape data].
  intros Ht Hg Hp -> -> Hbit; rewrite numel2 in *.
  unfold K_cast, K_greater; cbn [shape data]; rewrite map_map.
  change (map (fun x => b2f (fgreater x t)) p) with (binarize t p).
  assert (HL : length (binarize t p) = b * n)
    by (unfold binarize; now rewrite length_map).
  rewrite !iou_rows, !precision_rows, !recall_rows by assumption.
  rewrite (binarize_bits t' g Ht Hbit).
  repeat split; do 2 f_equal.
  - rewrite (zipWith_flip (recall_instance eps)).
    apply zipWith_ext; intros x y _ _; symmetry.
    apply recall_precision_instance.
  - rewrite (zipWith_flip (precision_instance eps)).
    apply zipWith_ext; intros x y _ _.
    apply recall_precision_instance.
  - rewrite (zipWith_flip (iou_instance eps) (chunk b n (binarize t p))).
    apply zipWith_ext; intros x y _ _.
    apply iou_instance_sym.
Qed.

Lemma exchange_of_roles_witness :
  precision eps7 y_example x_example 0.6
  = recall eps7 (K_cast (K_greater x_example 0.6)) y_example (1 # 2).
Proof.
  pose proof (exchange_of_roles eps7 0.6 (1 # 2) y_example x_example 3 3)
    as H.
  destruct H as (H & _);
    [ split; [unfold Qle; cbn; lia | reflexivity]
    | reflexivity | reflexivity | reflexivity | reflexivity | bits | ].
  exact H.
Defined.

(** ** The mask of a mask *)

Lemma product_closure (t : Q) (d : nat) (y_pred : tensor fl) (r : nat)
    (R C : nat -> bool) :
  (forall i j, i < d -> j < d -> predicted t d y_pred r i j = R i && C j) ->
  forall i j, i < d -> j < d ->
    row_active t d y_pred r i && col_active t d y_pred r j
    = predicted t d y_pred r i j.
Proof.
  intros Hprod i j Hi Hj.
  apply eq_true_iff_eq; rewrite andb_true_iff; split.
  - intros [Hr Hc]; apply existsb_exists in Hr, Hc.
    destruct Hr as (j' & Hj' & Hr), Hc as (i' & Hi' & Hc).
    apply in_seq in Hj', Hi'.
    rewrite Hprod in Hr, Hc |- * by lia.
    apply andb_true_iff in Hr, Hc; apply andb_true_iff; tauto.
  - intros Hp; split.
    + now apply predicted_row_active with (j := j).
    + now apply predicted_col_active with (i := i).
Qed.

Lemma fgreater_b2f_unit (c : bool) (t : Q) :
  (0 <= t < 1)%Q -> fgreater (b2f c) t = c.
Proof.
  intros Ht; destruct c; cbn [b2f fgreater].
  - apply Qltb_lt; lra.
  - apply Qltb_ge; lra.
Qed.

Lemma masks_fixed (t t' : Q) (b d : nat) (l : list fl) :
  0 < d -> length l = b * (d * d) -> (0 <= t' < 1)%Q ->
  concat (map (mask_img d)
            (images b d
               (binarize t'
                  (concat (map (mask_img d) (images b d (binarize t l)))))))
  = concat (map (mask_img d) (images b d (binarize t l))).
Proof.
  intros Hd Hlen Ht'.
  set (M := concat (map (mask_img d) (images b d (binarize t l)))).
  assert (HM : length M = b * (d * d)) by now apply length_masks.
  apply nth_ext with (d := Fin 0) (d' := Fin 0).
  - now rewrite length_masks.
  - rewrite length_masks by assumption; intros k Hk.
    destruct (index_cell b d k Hk) as (r & i & j & Hr & Hi & Hj & ->).
    change (nth ((r * d + i) * d + j) ?m (Fin 0))
      with (cell d m r i j (Fin 0)).
    assert (Hcell : forall i j, i < d -> j < d ->
              predicted t' d (mkTensor [b; d * d] M) r i j
              = row_active t d (mkTensor [b; d * d] l) r i
                && col_active t d (mkTensor [b; d * d] l) r j).
    { intros i0 j0 Hi0 Hj0; unfold predicted; cbn [data].
      unfold cell at 1.
      rewrite nth_indep with (d' := Fin 0) by (rewrite HM; nia).
      fold (cell d M r i0 j0 (Fin 0)).
      unfold M; rewrite mask_cell by assumption.
      now apply fgreater_b2f_unit. }
    rewrite (mask_cell t' b d r i j M) by assumption.
    rewrite (product_closure t' d _ r _ _ Hcell) by assumption.
    rewrite Hcell by assumption.
    unfold M; now rewrite mask_cell.
Qed.

(** X9: rebuilding the mask is idempotent.  For a prediction of shape
    (batch, d*d) with d > 0, the mask that [iou_bbox] computes is its own
    mask at any threshold in [0,1), so [iou_bbox] on the mask returns what
    it returns on the prediction, and this is the plain [iou] of the
    mask. *)
Theorem iou_bbox_mask_idempotent (eps t t' : Q) (gt pred mask : tensor fl)
    (b d : nat) :
  0 < d -> (0 <= t' < 1)%Q -> wf pred -> shape pred = [b; d * d] ->
  iou_bbox_mask pred t d = Ok mask ->
  iou_bbox_mask mask t' d = Ok mask
  /\ iou_bbox eps gt mask t' d = iou_bbox eps gt pred t d
  /\ iou_bbox eps gt pred t d = iou eps gt mask t'.
Proof.
  destruct pred as [sp p]; unfold wf; cbn [shape data].
  intros Hd Ht' Hp ->; rewrite numel2 in Hp.
  rewrite iou_bbox_mask_images by assumption.
  intros Hmask; injection Hmask as <-.
  set (M := concat (map (mask_img d) (images b d (binarize t p)))).
  assert (HM : length M = b * (d * d)) by now apply length_masks.
  assert (Hfix : iou_bbox_mask (mkTensor [b; d * d] M) t' d
                 = Ok (mkTensor [b; d * d] M)).
  { rewrite iou_bbox_mask_images by assumption.
    unfold M; now rewrite masks_fixed. }
  split; [exact Hfix | split].
  - unfold iou_bbox; rewrite Hfix.
    now rewrite iou_bbox_mask_images by assumption.
  - unfold iou_bbox; rewrite iou_bbox_mask_images by assumption.
    cbn [bind]; fold M.
    change (iou eps gt (mkTensor [b; d * d] M) t')
      with (iou_of_mask eps gt
              (K_cast (K_greater (mkTensor [b; d * d] M) t'))).
    unfold K_cast, K_greater; cbn [shape data]; rewrite map_map.
    change (map (fun x => b2f (fgreater x t')) M) with (binarize t' M).
    rewrite binarize_bits; [reflexivity | assumption | apply masks_bits].
Qed.

Lemma iou_bbox_mask_idempotent_witness :
  iou_bbox_mask (mkTensor [1; 9] (floats [1; 0; 1;  0; 0; 0;  1; 0; 1]%Q))
    (1 # 2) 3
  = Ok (mkTensor [1; 9] (floats [1; 0; 1;  0; 0; 0;  1; 0; 1]%Q)).
Proof.
  apply (iou_bbox_mask_idempotent eps7 (1 # 2) (1 # 2)
           corners_pred corners_pred _ 1 3);
    first [lia | reflexivity | (split; [unfold Qle; cbn; lia | reflexivity])].
Defined.

(** ** Accuracy against mean IoU *)

Lemma accuracy_sums (l : list fl) :
  Forall unit_value l ->
  exists sa s : Q,
    fsum (map (fun v => b2f (fgreater v (1 # 2))) l) = Fin sa
    /\ fsum l = Fin s
    /\ (sa <= 2 * s)%Q.
Proof.
  induction 1 as [|v l (q & -> & Hq) _ (sa & s & H1 & H2 & Hlo)].
  - exists 0%Q, 0%Q; repeat split; try reflexivity; lra.
  - cbn [map fsum fold_right].
    fold (fsum (map (fun v => b2f (fgreater v (1 # 2))) l)); fold (fsum l).
    rewrite H1, H2.
    cbn [fgreater]; destruct (Qltb (1 # 2) q) eqn:E;
      [apply Qltb_lt in E | apply Qltb_ge in E]; cbn [b2f fadd];
      do 2 eexists;
      (split; [reflexivity | split; [reflexivity | lra]]).
Qed.

(** X10: for a ground truth with values in {0,1} and a prediction of the
    same shape (batch, N) with at least one instance, and a positive
    epsilon, the accuracy a of [iou_acc] is at most twice the mean IoU c of
    [iou]: every instance that counts has an IoU above 1/2.  An accuracy
    of 1 thus needs a mean IoU of at least 1/2. *)
Theorem accuracy_and_mean_iou (eps t : Q) (gt pred : tensor fl) (b n : nat) :
  (0 < eps)%Q -> 0 < b -> wf gt -> wf pred ->
  shape gt = [b; n] -> shape pred = [b; n] -> binary bit gt ->
  exists a c : Q,
    iou_acc eps gt pred t = Ok (Fin a)
    /\ iou eps gt pred t = Ok (Fin c)
    /\ (a <= 2 * c)%Q.
Proof.
  destruct gt as [sg g], pred as [sp p]; unfold wf, binary; cbn [shape data].
  intros Heps Hb Hg Hp -> -> Hbit; rewrite numel2 in *.
  assert (Hbin := Forall_bit_binarize t p).
  rewrite iou_rows, iou_acc_rows by assumption.
  set (l := zipWith (iou_instance eps) (chunk b n g)
              (chunk b n (binarize t p))).
  assert (Hl : Forall unit_value l)
    by (apply unit_ratio_value, ratios_of_rows;
        auto using iou_instance_ratio).
  assert (Hlen : length l = b) by apply length_zip_chunks.
  destruct (accuracy_sums l Hl) as (sa & s & H1 & H2 & Hlo).
  unfold batch_mean; rewrite H1, H2, length_map, Hlen in *.
  assert (Hn : (0 < inject_Z (Z.of_nat b))%Q)
    by (change 0%Q with (inject_Z 0); rewrite <- Zlt_Qlt; lia).
  set (k := inject_Z (Z.of_nat b)) in *.
  cbn [fdiv]; rewrite Qzerob_false by lra.
  do 2 eexists; split; [reflexivity | split; [reflexivity|]].
  setoid_replace (2 * (s / k))%Q with ((2 * s) / k)%Q by (field; lra).
  now apply Qdiv_le_num.
Qed.

Lemma accuracy_and_mean_iou_witness :
  exists a c : Q,
    iou_acc eps7 y_example x_example 0.6 = Ok (Fin a)
    /\ iou eps7 y_example x_example 0.6 = Ok (Fin c)
    /\ (a <= 2 * c)%Q.
Proof.
  apply (accuracy_and_mean_iou eps7 0.6 y_example x_example 3 3);
    first [reflexivity | lia | bits].
Defined.

(** ** Names of the metrics *)

Lemma NoDup_map_append (pre : string) (l : list string) :
  NoDup l -> NoDup (map (String.append pre) l).
Proof.
  intros H; apply NoDup_map_NoDup_ForallPairs; [|assumption].
  intros x y _ _; induction pre as [|c pre IH]; cbn [String.append].
  - auto.
  - intros E; injection E as E; auto.
Qed.

Lemma names_of_kind (str : Q -> string) (f : metric_func) (ths : list Q) :
  map name (map (closed_metric str f) ths)
  = map (String.append (func_name f ++ "_")) (map str ths).
Proof.
  rewrite !map_map; apply map_ext; intros t; cbn [closed_metric name].
  generalize (func_name f) as s; intros s.
  induction s as [|c s IH]; cbn [String.append];
    [reflexivity | f_equal; exact IH].
Qed.

Ltac names_apart Hplain :=
  let x := fresh "x" in
  let H1 := fresh "H" in
  let H2 := fresh "H" in
  let s1 := fresh "s" in
  let s2 := fresh "s" in
  let E := fresh "E" in
  intros x H1 H2;
  repeat (apply in_app_or in H2; destruct H2 as [H2 | H2]);
  apply in_map_iff in H1; destruct H1 as (s1 & <- & H1);
  apply in_map_iff in H2; destruct H2 as (s2 & E & H2);
  cbn in E; try discriminate E;
  injection E as E;
  first [ apply Hplain in H1; subst s1 | apply Hplain in H2; subst s2 ];
  match goal with H : plain_threshold _ |- _ =>
    destruct H as [? ?]; cbn in * end;
  match goal with H : String.prefix EmptyString ?s = false |- _ =>
    destruct s; discriminate H end.

(** X11: the names of the metrics that [get_metrics] returns are pairwise
    distinct when the thresholds print to pairwise distinct strings, none
    of which begins with "acc_" or "bbox_" (as no printed number does). *)
Theorem get_metrics_names_distinct (eps : Q) (str : Q -> string)
    (input_dim : nat) (ths : list Q) :
  NoDup (map str ths) ->
  (forall s, In s (map str ths) -> plain_threshold s) ->
  NoDup (map name (get_metrics eps str input_dim ths)).
Proof.
  intros Hnd Hplain; rewrite get_metrics_flat.
  cbn [metric_kinds flat_map]; rewrite app_nil_r, !map_app, !names_of_kind.
  cbn [func_name].
  repeat (apply NoDup_app; [now apply NoDup_map_append | | ]);
    try (now apply NoDup_map_append);
    names_apart Hplain.
Qed.

Lemma get_metrics_names_distinct_witness :
  NoDup (map name (get_metrics eps7 decimal_str 3 [1 # 2; 3 # 4])).
Proof.
  assert (E : map decimal_str [1 # 2; 3 # 4] = ["0.5"; "0.75"]%string)
    by reflexivity.
  apply (get_metrics_names_distinct eps7 decimal_str 3 [1 # 2; 3 # 4]);
    rewrite E.
  - constructor; [intros [H | []]; discriminate H|].
    constructor; [intros [] | constructor].
  - intros s [<- | [<- | []]]; split; reflexivity.
Defined.

(** ** An empty ground truth or an empty prediction *)

Lemma zero_products_either (x y : list fl) :
  (Forall (eq (Fin 0)) x /\ Forall bit y)
  \/ (Forall bit x /\ Forall (eq (Fin 0)) y) ->
  exists q : Q, fsum (zipWith fmul x y) = Fin q /\ (q == 0)%Q.
Proof.
  intros [[Hx Hy] | [Hx Hy]].
  - now apply zero_products.
  - rewrite (zipWith_comm fmul x y fmul_comm); now apply zero_products.
Qed.

Lemma instances_zero_either (eps : Q) (x y : list fl) :
  (0 < eps)%Q ->
  (Forall (eq (Fin 0)) x /\ Forall bit y)
  \/ (Forall bit x /\ Forall (eq (Fin 0)) y) ->
  zero_value (iou_instance eps x y)
  /\ zero_value (precision_instance eps x y)
  /\ zero_value (recall_instance eps x y).
Proof.
  intros Heps H.
  destruct (zero_products_either x y H) as (q & Hq & Hq0).
  destruct (fsum_positive (zipWith fadd x y)) as (u & Hu & Hu0).
  destruct (fsum_positive (zipWith fsub y x)) as (fp & Hfp & Hfp0).
  destruct (fsum_positive (zipWith fsub x y)) as (fn & Hfn & Hfn0).
  unfold iou_instance, precision_instance, recall_instance; cbv zeta.
  rewrite Hq, Hu, Hfp, Hfn; cbn [fadd].
  repeat split; apply zero_ratio; first [assumption | lra].
Qed.

Lemma zero_rows_either (f : list fl -> list fl -> fl) (b n : nat)
    (g m : list fl) :
  (forall x y,
     (Forall (eq (Fin 0)) x /\ Forall bit y)
     \/ (Forall bit x /\ Forall (eq (Fin 0)) y) -> zero_value (f x y)) ->
  (Forall (eq (Fin 0)) g /\ Forall bit m)
  \/ (Forall bit g /\ Forall (eq (Fin 0)) m) ->
  Forall zero_value (zipWith f (chunk b n g) (chunk b n m)).
Proof.
  intros Hf [[Hg Hm] | [Hg Hm]].
  - apply Forall_zipWith
      with (P := Forall (eq (Fin 0))) (R := Forall bit);
      auto using Forall_chunk.
  - apply Forall_zipWith
      with (P := Forall bit) (R := Forall (eq (Fin 0)));
      auto using Forall_chunk.
Qed.

Lemma accuracy_of_zeros (l : list fl) :
  Forall zero_value l ->
  Forall zero_value (map (fun v => b2f (fgreater v (1 # 2))) l).
Proof.
  intros H; apply Forall_map; eapply Forall_impl; [|exact H].
  intros v (q & -> & Hq); cbn [fgreater].
  replace (Qltb (1 # 2) q) with false
    by (symmetry; apply Qltb_ge; lra).
  exists 0%Q; split; reflexivity.
Qed.

Lemma nothing_predicted_rectangular (t : Q) (d : nat) (y_pred : tensor fl)
    (r : nat) :
  Forall (fun v => fgreater v t = false) (data y_pred) ->
  rectangular t d y_pred r.
Proof.
  intros Hlow; exists 0, 0, 0, 0; intros i j Hi Hj; split; [|lia].
  unfold predicted, cell; intros Hp.
  destruct (Nat.lt_ge_cases ((r * d + i) * d + j) (length (data y_pred)))
    as [Hin | Hout].
  - rewrite Forall_forall in Hlow.
    rewrite Hlow in Hp by (now apply nth_In); discriminate.
  - rewrite nth_overflow in Hp by assumption; discriminate.
Qed.

(** X12: on a batch with at least one instance and with a positive
    epsilon, when the ground truth has values in {0,1} and either the
    ground truth is all zeros or no prediction exceeds the threshold,
    each of [iou], [precision], [recall] and [iou_acc] returns 0, and so
    does [iou_bbox] when input_dim is positive and N is its square: an
    empty side scores zero, not NaN. *)
Theorem empty_side_scores_zero (eps t : Q) (gt pred : tensor fl) (b n : nat) :
  (0 < eps)%Q -> 0 < b -> wf gt -> wf pred ->
  shape gt = [b; n] -> shape pred = [b; n] -> binary bit gt ->
  Forall (eq (Fin 0)) (data gt)
  \/ Forall (fun v => fgreater v t = false) (data pred) ->
  is_zero (iou eps gt pred t)
  /\ is_zero (precision eps gt pred t)
  /\ is_zero (recall eps gt pred t)
  /\ is_zero (iou_acc eps gt pred t)
  /\ (forall d, 0 < d -> d * d = n -> is_zero (iou_bbox eps gt pred t d)).
Proof.
  destruct gt as [sg g], pred as [sp p]; unfold wf, binary; cbn [shape data].
  intros Heps Hb Hg Hp -> -> Hbit Hempty; rewrite numel2 in *.
  assert (Hbin := Forall_bit_binarize t p).
  assert (Hside : (Forall (eq (Fin 0)) g /\ Forall bit (binarize t p))
                  \/ (Forall bit g /\ Forall (eq (Fin 0)) (binarize t p))).
  { destruct Hempty as [Hz | Hlow]; [left | right]; split; auto.
    now apply binarize_zero. }
  rewrite iou_rows, precision_rows, recall_rows, iou_acc_rows by assumption.
  repeat split.
  - apply mean_zero; [|now rewrite length_zip_chunks].
    apply zero_rows_either; [|assumption].
    intros x y H; now apply instances_zero_either.
  - apply mean_zero; [|now rewrite length_zip_chunks].
    apply zero_rows_either; [|assumption].
    intros x y H; now apply instances_zero_either.
  - apply mean_zero; [|now rewrite length_zip_chunks].
    apply zero_rows_either; [|assumption].
    intros x y H; now apply instances_zero_either.
  - apply mean_zero; [|now rewrite length_map, length_zip_chunks].
    apply accuracy_of_zeros, zero_rows_either; [|assumption].
    intros x y H; now apply instances_zero_either.
  - intros d Hd <-; unfold iou_bbox.
    destruct Hempty as [Hz | Hlow].
    + rewrite iou_bbox_mask_images by assumption; cbn [bind].
      rewrite iou_of_mask_rows by (auto using length_masks).
      apply mean_zero; [|now rewrite length_zip_chunks].
      apply zero_rows_either; [|left; split; [assumption | apply masks_bits]].
      intros x y H; now apply instances_zero_either.
    + rewrite iou_bbox_mask_rectangles;
        [ | assumption | assumption
          | intros r _; now apply nothing_predicted_rectangular ].
      cbn [bind]; unfold K_cast, K_greater; cbn [shape data].
      rewrite map_map.
      change (map (fun x => b2f (fgreater x t)) p) with (binarize t p).
      rewrite iou_of_mask_rows
        by (try assumption; unfold binarize; now rewrite length_map).
      apply mean_zero; [|now rewrite length_zip_chunks].
      apply zero_rows_either; [|assumption].
      intros x y H; now apply instances_zero_either.
Qed.

Lemma empty_side_scores_zero_witness :
  is_zero (precision eps7 mixed_gt quiet_pred (1 # 2))
  /\ is_zero (iou_acc eps7 mixed_gt quiet_pred (1 # 2))
  /\ is_zero (iou_bbox eps7 mixed_gt quiet_pred (1 # 2) 2).
Proof.
  pose proof (empty_side_scores_zero eps7 (1 # 2) mixed_gt quiet_pred 2 4)
    as H.
  destruct H as (_ & H2 & _ & H4 & H5);
    [ reflexivity | lia | reflexivity | reflexivity | reflexivity
    | reflexivity | bits
    | right; cbn; repeat (constructor; [reflexivity|]); constructor
    | ].
  split; [exact H2 | split; [exact H4 | apply (H5 2); [lia | reflexivity]]].
Defined.

(** ** The report of a metric value *)

Lemma string_length_append (s1 s2 : string) :
  String.length (s1 ++ s2) = String.length s1 + String.length s2.
Proof.
  induction s1 as [|c s1 IH]; cbn [String.append String.length];
    [reflexivity | now rewrite IH].
Qed.

Lemma round_half_even_unit (q : Q) :
  (0 <= q <= 1)%Q -> (0 <= round_half_even (Qabs q * 1000) <= 1000)%Z.
Proof.
  intros Hq.
  assert (H := round_half_even_nearest (Qabs q * 1000)).
  apply Qabs_Qle_condition in H.
  assert (Ha : (Qabs q == q)%Q) by (apply Qabs_pos; lra).
  set (a := Qabs q) in *.
  set (m := round_half_even (a * 1000)) in *.
  assert (Hlo : (inject_Z (-1) < inject_Z m)%Q)
    by (change (inject_Z (-1)) with (-1)%Q; lra).
  assert (Hhi : (inject_Z m < inject_Z 1001)%Q)
    by (change (inject_Z 1001) with 1001%Q; lra).
  rewrite <- Zlt_Qlt in Hlo, Hhi; lia.
Qed.

(** X13: a positive value of at most 1 is reported by ['%2.3f'] on exactly
    five characters: "1.000" when it rounds to one, and otherwise "0."
    followed by three digits.  Zero is left out: [Fin 0] stands for both
    zeros of the floats, and ['%2.3f'] prints the negative one with a
    sign. *)
Theorem format_scalar_unit (q : Q) :
  (0 < q <= 1)%Q ->
  String.length (format_scalar (Fin q)) = 5
  /\ (format_scalar (Fin q) = "1.000"%string
      \/ String.prefix "0." (format_scalar (Fin q)) = true).
Proof.
  intros Hq.
  assert (Hm := round_half_even_unit q ltac:(lra)).
  cbn [format_scalar]; cbv zeta.
  set (m := round_half_even (Qabs q * 1000)) in *.
  replace (Qltb q 0) with false by (symmetry; apply Qltb_ge; lra).
  destruct (Z.eq_dec m 1000) as [-> | Hne].
  - split; [reflexivity | left; reflexivity].
  - assert (E : (m / 1000 = 0)%Z) by (apply Z.div_small; lia).
    rewrite E; split; [|right; reflexivity].
    unfold digit; cbn [String.append String.length]; reflexivity.
Qed.

Lemma format_scalar_unit_witness :
  String.length (format_scalar (Fin 0.7)) = 5
  /\ String.prefix "0." (format_scalar (Fin 0.7)) = true.
Proof.
  split; [|reflexivity].
  apply (format_scalar_unit 0.7); split; [unfold Qlt | unfold Qle]; cbn; lia.
Defined.

(** ** Reports of consecutive blocks *)

Lemma format_results_entries (names : list string) (scalars : list fl) :
  format_results names scalars
  = Ok (String.concat ", "
          (map (fun p => (fst p ++ ": " ++ format_scalar (snd p))%string)
             (combine names scalars))).
Proof.
  unfold format_results; cbv zeta.
  now rewrite (fold_left_append_pairs
                 (fun a b => (a ++ ": " ++ format_scalar b)%string)).
Qed.

Lemma combine_app_same {A B} (l1 l2 : list A) (m1 m2 : list B) :
  length l1 = length m1 ->
  combine (l1 ++ l2) (m1 ++ m2) = combine l1 m1 ++ combine l2 m2.
Proof.
  revert m1; induction l1 as [|x l1 IH]; intros [|y m1] H; try discriminate;
    cbn; [reflexivity|].
  f_equal; apply IH; simpl in H; lia.
Qed.

Lemma string_append_assoc (a b c : string) :
  ((a ++ b) ++ c)%string = (a ++ b ++ c)%string.
Proof.
  induction a as [|x a IH]; cbn [String.append];
    [reflexivity | now rewrite IH].
Qed.

Lemma concat_app_sep (sep : string) (l1 l2 : list string) :
  l1 <> [] -> l2 <> [] ->
  String.concat sep (l1 ++ l2)
  = (String.concat sep l1 ++ sep ++ String.concat sep l2)%string.
Proof.
  intros H1 H2; induction l1 as [|x l1 IH]; [congruence|].
  destruct l1 as [|y l1].
  - destruct l2 as [|z l2]; [congruence | reflexivity].
  - specialize (IH ltac:(congruence)).
    change (String.concat sep ((x :: y :: l1) ++ l2))
      with (x ++ sep ++ String.concat sep ((y :: l1) ++ l2))%string.
    change (String.concat sep (x :: y :: l1))
      with (x ++ sep ++ String.concat sep (y :: l1))%string.
    now rewrite IH, !string_append_assoc.
Qed.

(** X14: reports compose.  When a first block pairs as many names as
    scalars and both blocks have at least one pair, the report of the two
    blocks put end to end is the report of the first, ", " and the report
    of the second. *)
Theorem format_results_app (names1 names2 : list string)
    (scalars1 scalars2 : list fl) (r1 r2 : string) :
  length names1 = length scalars1 ->
  names1 <> [] -> names2 <> [] -> scalars2 <> [] ->
  format_results names1 scalars1 = Ok r1 ->
  format_results names2 scalars2 = Ok r2 ->
  format_results (names1 ++ names2) (scalars1 ++ scalars2)
  = Ok (r1 ++ ", " ++ r2)%string.
Proof.
  intros Hlen Hn1 Hn2 Hs2; rewrite !format_results_entries.
  intros E1 E2; injection E1 as <-; injection E2 as <-.
  rewrite combine_app_same, map_app by assumption.
  rewrite concat_app_sep; [reflexivity | |].
  - destruct names1, scalars1; cbn in *; congruence.
  - destruct names2, scalars2; cbn in *; congruence.
Qed.

Lemma format_results_app_witness :
  format_results (["a"%string] ++ ["b"%string; "c"%string])
    ([Fin 1] ++ [Fin 2.5; NaN])
  = Ok ("a: 1.000" ++ ", " ++ "b: 2.500, c: nan")%string.
Proof.
  apply (format_results_app ["a"]%string ["b"; "c"]%string
           [Fin 1] [Fin 2.5; NaN]);
    first [reflexivity | discriminate].
Defined.
